(** * StellariumMount: a two-axis stepper positioner

    Shallow embedding of [src/StellariumMount/StellariumMount.ino].

    - The sketch's global variables (and the function-local [static]
      of [stepMotor]) are the fields of one record, [Ctl]; every
      [void] function of the sketch is a transformer of that record.
    - The two output channels are recorded in the same record:
      [serialOut] is the text written to [Serial] so far, [pinLog] the
      list of [digitalWrite] calls so far, oldest first.
    - [int] is the 16-bit integer of the Arduino Uno; it is modelled by
      [Z].  The only place where a value wider than 16 bits can enter
      is the narrowing of [String::toInt]'s [long] result, written out
      as [wrap16].  The increments and decrements of the sketch stay
      inside the 16-bit range (see [tick_within_int]).
    - An Arduino [String] is its [len] bytes, a Rocq [string] in which
      the byte NUL may occur.  The members of the class that work on
      the C string ([strcpy], [strcmp], [atol], ...) see such a string
      up to its first NUL only, and so do their models below.
    - [delay] only lets real time pass and is not modelled. *)

From Stdlib Require Import ZArith List Bool String Ascii Lia DecimalString DecimalZ.
Import ListNotations.

Local Open Scope string_scope.
Local Open Scope Z_scope.

(* ================================================================= *)
(** ** Arduino core: characters and [String] *)

(** The sketch relies on a handful of members of the Arduino [String]
    class and on the [constrain] macro of [Arduino.h].  They are part
    of the Arduino core, not of this repository; they are modelled here
    after the core's [WString.cpp] and avr-libc.  Heap allocation is
    taken to succeed. *)

Module Arduino.

Definition NUL : ascii := "000"%char.
Definition LF : ascii := "010"%char.
Definition CR : ascii := "013"%char.

(** The C string a buffer holds: its bytes in front of the first NUL. *)
Fixpoint c_str (s : string) : string :=
  match s with
  | EmptyString => EmptyString
  | String c r => if Ascii.eqb c NUL then EmptyString else String c (c_str r)
  end.

(** [isspace] of the C locale: TAB, LF, VT, FF, CR and the blank. *)
Definition isspace (c : ascii) : bool :=
  let n := nat_of_ascii c in
  ((9 <=? n) && (n <=? 13))%nat || (n =? 32)%nat.

Definition isdigit (c : ascii) : bool :=
  let n := nat_of_ascii c in ((48 <=? n) && (n <=? 57))%nat.

Definition digit_val (c : ascii) : Z := Z.of_nat (nat_of_ascii c) - 48.

(** [toupper] of the C locale. *)
Definition toupper (c : ascii) : ascii :=
  let n := nat_of_ascii c in
  if ((97 <=? n) && (n <=? 122))%nat then ascii_of_nat (n - 32) else c.

(** [String::toUpperCase]: a pointer walks over the buffer and applies
    [toupper] until it meets a NUL; the walk ends at the first NUL and
    leaves what follows as it is. *)
Fixpoint toUpperCase (s : string) : string :=
  match s with
  | EmptyString => EmptyString
  | String c r =>
      if Ascii.eqb c NUL then s else String (toupper c) (toUpperCase r)
  end.

Fixpoint skip_space (s : string) : string :=
  match s with
  | EmptyString => EmptyString
  | String c r => if isspace c then skip_space r else s
  end.

(** Drops the white space at the end of [s]. *)
Fixpoint drop_trailing_space (s : string) : string :=
  match s with
  | EmptyString => EmptyString
  | String c r =>
      match drop_trailing_space r with
      | EmptyString => if isspace c then EmptyString else String c EmptyString
      | r' => String c r'
      end
  end.

(** [String::trim]: white space is removed at both ends of the [len]
    bytes; NUL is not white space. *)
Definition trim (s : string) : string :=
  drop_trailing_space (skip_space s).

(** [String::startsWith], for a prefix [p] without NUL: [len] is at
    least that of [p] and [strncmp] finds the bytes of [p] at the
    front. *)
Definition startsWith (s p : string) : bool := String.prefix p s.

(** [String::equals] on a C string, the [==] of the sketch, for a
    literal [lit]: [strcmp (buffer, lit) == 0]. *)
Definition equals (s lit : string) : bool := (c_str s =? lit)%string.

(** [String::substring(left)]: the new [String] is assigned the C
    string that starts at index [left]. *)
Definition substring_from (left : nat) (s : string) : string :=
  c_str (String.substring left (String.length s - left) s).

(** The result of a conversion to a signed [w]-bit integer. *)
Definition wrap (w : Z) (z : Z) : Z :=
  (z + 2 ^ (w - 1)) mod 2 ^ w - 2 ^ (w - 1).
Definition wrap16 : Z -> Z := wrap 16.
Definition wrap32 : Z -> Z := wrap 32.

(** The value of the run of decimal digits [s] starts with. *)
Fixpoint digits (acc : Z) (s : string) : Z :=
  match s with
  | EmptyString => acc
  | String c r => if isdigit c then digits (acc * 10 + digit_val c) r else acc
  end.

(** avr-libc's [atol]: white space is skipped, one sign is accepted,
    then the digits are read up to the first character that is not
    one (the terminating NUL at the latest); the accumulation is in a
    [long], without overflow check. *)
Definition atol (s : string) : Z :=
  match skip_space s with
  | EmptyString => 0
  | String c r =>
      if Ascii.eqb c "-" then wrap32 (- digits 0 r)
      else if Ascii.eqb c "+" then wrap32 (digits 0 r)
      else wrap32 (digits 0 (String c r))
  end.

(** [String::toInt] returns a [long]. *)
Definition toInt (s : string) : Z := atol s.

(** [#define constrain(amt,low,high)
       ((amt)<(low)?(low):((amt)>(high)?(high):(amt)))] *)
Definition constrain (amt low high : Z) : Z :=
  if amt <? low then low else if amt >? high then high else amt.

(** [Print::print(int)]: the decimal numeral. *)
Definition print_int (z : Z) : string := NilZero.string_of_int (Z.to_int z).

End Arduino.
Import Arduino.

(* ================================================================= *)
(** ** The sketch's globals *)

(** Pin numbers. *)
Definition AZIMUTH_IN1 : Z := 2.
Definition AZIMUTH_IN2 : Z := 3.
Definition AZIMUTH_IN3 : Z := 4.
Definition AZIMUTH_IN4 : Z := 5.
Definition ALTITUDE_IN1 : Z := 6.
Definition ALTITUDE_IN2 : Z := 7.
Definition ALTITUDE_IN3 : Z := 8.
Definition ALTITUDE_IN4 : Z := 9.

Definition azimuthPins : list Z :=
  [AZIMUTH_IN1; AZIMUTH_IN2; AZIMUTH_IN3; AZIMUTH_IN4].
Definition altitudePins : list Z :=
  [ALTITUDE_IN1; ALTITUDE_IN2; ALTITUDE_IN3; ALTITUDE_IN4].

(** The 8-step (half-step) sequence of the 28BYJ-48. *)
Definition stepSequence : list (list Z) :=
  [ [1; 0; 0; 0];
    [1; 1; 0; 0];
    [0; 1; 0; 0];
    [0; 1; 1; 0];
    [0; 0; 1; 0];
    [0; 0; 1; 1];
    [0; 0; 0; 1];
    [1; 0; 0; 1] ].

Definition STEPS_PER_REVOLUTION : Z := 2048.
Definition AZIMUTH_MAX_STEPS : Z := STEPS_PER_REVOLUTION.
Definition ALTITUDE_MAX_STEPS : Z := STEPS_PER_REVOLUTION / 2.
Definition STEP_DELAY : Z := 2.
Definition LOW : Z := 0.

(** All mutable state of the sketch, with the two output channels. *)
Record Ctl : Type := mkCtl {
  azimuthStep      : Z;
  altitudeStep     : Z;
  azimuthTarget    : Z;
  altitudeTarget   : Z;
  azimuthMoving    : bool;
  altitudeMoving   : bool;
  testAzimuthOnly  : bool;
  testAltitudeOnly : bool;
  testBothMotors   : bool;
  inputString      : string;
  stringComplete   : bool;
  currentStep      : Z;              (* [static int] of [stepMotor] *)
  serialOut        : string;         (* text sent to [Serial] *)
  pinLog           : list (Z * Z)    (* [digitalWrite (pin, value)] calls *)
}.

(** The values the globals are initialised with. *)
Definition initial : Ctl :=
  {| azimuthStep := 0; altitudeStep := 0;
     azimuthTarget := 0; altitudeTarget := 0;
     azimuthMoving := false; altitudeMoving := false;
     testAzimuthOnly := false; testAltitudeOnly := false;
     testBothMotors := true;
     inputString := EmptyString; stringComplete := false;
     currentStep := 0;
     serialOut := EmptyString; pinLog := [] |}.

(** Assignments to the globals. *)
Definition set_azimuthStep (v : Z) (s : Ctl) : Ctl :=
  mkCtl v (altitudeStep s) (azimuthTarget s) (altitudeTarget s)
        (azimuthMoving s) (altitudeMoving s)
        (testAzimuthOnly s) (testAltitudeOnly s) (testBothMotors s)
        (inputString s) (stringComplete s) (currentStep s)
        (serialOut s) (pinLog s).
Definition set_altitudeStep (v : Z) (s : Ctl) : Ctl :=
  mkCtl (azimuthStep s) v (azimuthTarget s) (altitudeTarget s)
        (azimuthMoving s) (altitudeMoving s)
        (testAzimuthOnly s) (testAltitudeOnly s) (testBothMotors s)
        (inputString s) (stringComplete s) (currentStep s)
        (serialOut s) (pinLog s).
Definition set_azimuthTarget (v : Z) (s : Ctl) : Ctl :=
  mkCtl (azimuthStep s) (altitudeStep s) v (altitudeTarget s)
        (azimuthMoving s) (altitudeMoving s)
        (testAzimuthOnly s) (testAltitudeOnly s) (testBothMotors s)
        (inputString s) (stringComplete s) (currentStep s)
        (serialOut s) (pinLog s).
Definition set_altitudeTarget (v : Z) (s : Ctl) : Ctl :=
  mkCtl (azimuthStep s) (altitudeStep s) (azimuthTarget s) v
        (azimuthMoving s) (altitudeMoving s)
        (testAzimuthOnly s) (testAltitudeOnly s) (testBothMotors s)
        (inputString s) (stringComplete s) (currentStep s)
        (serialOut s) (pinLog s).
Definition set_azimuthMoving (v : bool) (s : Ctl) : Ctl :=
  mkCtl (azimuthStep s) (altitudeStep s) (azimuthTarget s) (altitudeTarget s)
        v (altitudeMoving s)
        (testAzimuthOnly s) (testAltitudeOnly s) (testBothMotors s)
        (inputString s) (stringComplete s) (currentStep s)
        (serialOut s) (pinLog s).
Definition set_altitudeMoving (v : bool) (s : Ctl) : Ctl :=
  mkCtl (azimuthStep s) (altitudeStep s) (azimuthTarget s) (altitudeTarget s)
        (azimuthMoving s) v
        (testAzimuthOnly s) (testAltitudeOnly s) (testBothMotors s)
        (inputString s) (stringComplete s) (currentStep s)
        (serialOut s) (pinLog s).
Definition set_testFlags (az al both : bool) (s : Ctl) : Ctl :=
  mkCtl (azimuthStep s) (altitudeStep s) (azimuthTarget s) (altitudeTarget s)
        (azimuthMoving s) (altitudeMoving s)
        az al both
        (inputString s) (stringComplete s) (currentStep s)
        (serialOut s) (pinLog s).
Definition set_inputString (v : string) (s : Ctl) : Ctl :=
  mkCtl (azimuthStep s) (altitudeStep s) (azimuthTarget s) (altitudeTarget s)
        (azimuthMoving s) (altitudeMoving s)
        (testAzimuthOnly s) (testAltitudeOnly s) (testBothMotors s)
        v (stringComplete s) (currentStep s)
        (serialOut s) (pinLog s).
Definition set_stringComplete (v : bool) (s : Ctl) : Ctl :=
  mkCtl (azimuthStep s) (altitudeStep s) (azimuthTarget s) (altitudeTarget s)
        (azimuthMoving s) (altitudeMoving s)
        (testAzimuthOnly s) (testAltitudeOnly s) (testBothMotors s)
        (inputString s) v (currentStep s)
        (serialOut s) (pinLog s).
Definition set_currentStep (v : Z) (s : Ctl) : Ctl :=
  mkCtl (azimuthStep s) (altitudeStep s) (azimuthTarget s) (altitudeTarget s)
        (azimuthMoving s) (altitudeMoving s)
        (testAzimuthOnly s) (testAltitudeOnly s) (testBothMotors s)
        (inputString s) (stringComplete s) v
        (serialOut s) (pinLog s).

(** [Serial.print] and [Serial.println]. *)
Definition Serial_print (t : string) (s : Ctl) : Ctl :=
  mkCtl (azimuthStep s) (altitudeStep s) (azimuthTarget s) (altitudeTarget s)
        (azimuthMoving s) (altitudeMoving s)
        (testAzimuthOnly s) (testAltitudeOnly s) (testBothMotors s)
        (inputString s) (stringComplete s) (currentStep s)
        (serialOut s ++ t) (pinLog s).
Definition Serial_println (t : string) (s : Ctl) : Ctl :=
  Serial_print (t ++ String CR (String LF EmptyString)) s.

(** [digitalWrite]. *)
Definition digitalWrite (pin value : Z) (s : Ctl) : Ctl :=
  mkCtl (azimuthStep s) (altitudeStep s) (azimuthTarget s) (altitudeTarget s)
        (azimuthMoving s) (altitudeMoving s)
        (testAzimuthOnly s) (testAltitudeOnly s) (testBothMotors s)
        (inputString s) (stringComplete s) (currentStep s)
        (serialOut s) (pinLog s ++ [(pin, value)])%list.

(** Statements: a [void] function body is a transformer of [Ctl]. *)
Definition Stmt : Type := Ctl -> Ctl.
Definition skip : Stmt := fun s => s.
Definition seq (a b : Stmt) : Stmt := fun s => b (a s).
Definition ifte (c : Ctl -> bool) (a b : Stmt) : Stmt :=
  fun s => if c s then a s else b s.

Declare Scope stmt_scope.
Delimit Scope stmt_scope with stmt.
Bind Scope stmt_scope with Stmt.
Notation "a ;; b" := (seq a b) (at level 61, left associativity) : stmt_scope.
Notation "'IF' c 'THEN' a 'ELSE' b" :=
  (ifte c a b) (at level 62, c at level 61, a at level 61, right associativity) : stmt_scope.
Notation "'WHEN' c 'THEN' a" :=
  (ifte c a skip) (at level 62, c at level 61, a at level 61) : stmt_scope.

Local Open Scope stmt_scope.

(** [for (int i = 0; i < n; i++) body(i)]. *)
Definition for_upto (n : nat) (body : nat -> Stmt) : Stmt :=
  fun s => fold_left (fun acc i => body i acc) (List.seq 0 n) s.

(* ================================================================= *)
(** ** The functions of the sketch *)

(** [setup]: the banner is printed and the eight coil pins are driven
    low.  ([Serial.begin], [pinMode] and [String::reserve] configure
    the hardware and do not touch the state modelled here.) *)
Definition setup : Stmt :=
  Serial_println "Stellarium Mount Controller Ready" ;;
  Serial_println "Commands:" ;;
  Serial_println "  AZ,<steps> - Move azimuth motor" ;;
  Serial_println "  AL,<steps> - Move altitude motor" ;;
  Serial_println "  STATUS - Get current position" ;;
  Serial_println "  HOME - Move to home position" ;;
  Serial_println "  STOP - Stop all movement" ;;
  Serial_println "  TEST_AZ - Test azimuth motor only" ;;
  Serial_println "  TEST_AL - Test altitude motor only" ;;
  Serial_println "  TEST_BOTH - Test both motors (default)" ;;
  Serial_println "  TEST_MODE - Show current test mode" ;;
  for_upto 4 (fun i =>
    digitalWrite (nth i azimuthPins 0) LOW ;;
    digitalWrite (nth i altitudePins 0) LOW).

Definition moveAzimuthTo (target : Z) : Stmt :=
  set_azimuthTarget (constrain target 0 AZIMUTH_MAX_STEPS) ;;
  set_azimuthMoving true.

Definition moveAltitudeTo (target : Z) : Stmt :=
  set_altitudeTarget (constrain target 0 ALTITUDE_MAX_STEPS) ;;
  set_altitudeMoving true.

(** [stepMotor]: the phase index [currentStep] is a [static] local, one
    variable for all calls whatever [motorPins] is.  [%] is C's
    remainder, [Z.rem]. *)
Definition stepMotor (motorPins : list Z) (direction : Z) : Stmt :=
  (IF (fun _ => direction >? 0)
   THEN (fun s => set_currentStep (Z.rem (currentStep s + 1) 8) s)
   ELSE (fun s => set_currentStep (Z.rem (currentStep s - 1 + 8) 8) s)) ;;
  for_upto 4 (fun i s =>
    digitalWrite (nth i motorPins 0)
                 (nth i (nth (Z.to_nat (currentStep s)) stepSequence []) 0) s).

Definition moveAzimuthMotor : Stmt :=
  IF (fun s => azimuthStep s <? azimuthTarget s)
  THEN (fun s => set_azimuthStep (azimuthStep s + 1) s) ;;
       stepMotor azimuthPins 1
  ELSE IF (fun s => azimuthStep s >? azimuthTarget s)
  THEN (fun s => set_azimuthStep (azimuthStep s - 1) s) ;;
       stepMotor azimuthPins (-1)
  ELSE set_azimuthMoving false ;;
       Serial_println "AZIMUTH: Target reached".

Definition moveAltitudeMotor : Stmt :=
  IF (fun s => altitudeStep s <? altitudeTarget s)
  THEN (fun s => set_altitudeStep (altitudeStep s + 1) s) ;;
       stepMotor altitudePins 1
  ELSE IF (fun s => altitudeStep s >? altitudeTarget s)
  THEN (fun s => set_altitudeStep (altitudeStep s - 1) s) ;;
       stepMotor altitudePins (-1)
  ELSE set_altitudeMoving false ;;
       Serial_println "ALTITUDE: Target reached".

Definition bit (b : bool) : string := if b then "1" else "0".

(** The body of [processCommand] once [command] has been trimmed and
    upper-cased.  [int steps = ....toInt()] narrows a [long];
    [Serial.print(command)] writes the [len] bytes of [command]. *)
Definition dispatch (command : string) : Stmt :=
  if startsWith command "AZ," then
    let steps := wrap16 (toInt (substring_from 3 command)) in
    moveAzimuthTo steps ;;
    Serial_print "AZIMUTH: Moving to step " ;;
    Serial_println (print_int steps)
  else if startsWith command "AL," then
    let steps := wrap16 (toInt (substring_from 3 command)) in
    moveAltitudeTo steps ;;
    Serial_print "ALTITUDE: Moving to step " ;;
    Serial_println (print_int steps)
  else if equals command "STATUS" then
    Serial_print "STATUS: AZ=" ;;
    (fun s => Serial_print (print_int (azimuthStep s)) s) ;;
    Serial_print ", AL=" ;;
    (fun s => Serial_print (print_int (altitudeStep s)) s) ;;
    Serial_print ", AZ_MOVING=" ;;
    (fun s => Serial_print (bit (azimuthMoving s)) s) ;;
    Serial_print ", AL_MOVING=" ;;
    (fun s => Serial_print (bit (altitudeMoving s)) s) ;;
    Serial_print ", TEST_MODE=" ;;
    (IF testAzimuthOnly THEN Serial_println "AZ_ONLY"
     ELSE IF testAltitudeOnly THEN Serial_println "AL_ONLY"
     ELSE WHEN testBothMotors THEN Serial_println "BOTH")
  else if equals command "HOME" then
    moveAzimuthTo 0 ;;
    moveAltitudeTo 0 ;;
    Serial_println "HOME: Moving to home position"
  else if equals command "STOP" then
    set_azimuthMoving false ;;
    set_altitudeMoving false ;;
    Serial_println "STOP: All movement stopped"
  else if equals command "HELP" then
    Serial_println "Available commands:" ;;
    Serial_println "  AZ,<steps> - Move azimuth motor to step position" ;;
    Serial_println "  AL,<steps> - Move altitude motor to step position" ;;
    Serial_println "  STATUS - Get current position and movement status" ;;
    Serial_println "  HOME - Move both motors to home position (0,0)" ;;
    Serial_println "  STOP - Stop all movement" ;;
    Serial_println "  TEST_AZ - Test azimuth motor only" ;;
    Serial_println "  TEST_AL - Test altitude motor only" ;;
    Serial_println "  TEST_BOTH - Test both motors (default)" ;;
    Serial_println "  TEST_MODE - Show current test mode" ;;
    Serial_println "  HELP - Show this help message"
  else if equals command "TEST_AZ" then
    set_testFlags true false false ;;
    Serial_println "TEST_MODE: Azimuth motor only"
  else if equals command "TEST_AL" then
    set_testFlags false true false ;;
    Serial_println "TEST_MODE: Altitude motor only"
  else if equals command "TEST_BOTH" then
    set_testFlags false false true ;;
    Serial_println "TEST_MODE: Both motors"
  else if equals command "TEST_MODE" then
    Serial_print "TEST_MODE: " ;;
    (IF testAzimuthOnly THEN Serial_println "Azimuth motor only"
     ELSE IF testAltitudeOnly THEN Serial_println "Altitude motor only"
     ELSE WHEN testBothMotors THEN Serial_println "Both motors")
  else
    Serial_print "ERROR: Unknown command '" ;;
    Serial_print command ;;
    Serial_println "'. Type HELP for available commands.".

Section Sketch.

(** The heap.  [junk i] is the byte found at offset [i] of the block
    that [malloc] returns for the buffer of a new [String].  Nothing is
    known about it: all that follows holds whatever [junk] is. *)
Variable junk : nat -> ascii.

(** The [n] bytes of a fresh block from offset [i] on. *)
Fixpoint garbage (i n : nat) : string :=
  match n with
  | O => EmptyString
  | S k => String (junk i) (garbage (S i) k)
  end.

(** [String::String(const String &)], the by-value parameter of
    [processCommand]: [len] is taken over and the bytes are copied by
    [strcpy], which stops behind the first NUL; the bytes of the new
    block that follow it were never written.  [i] is the offset of the
    first byte of [s]. *)
Fixpoint copy_from (i : nat) (s : string) : string :=
  match s with
  | EmptyString => EmptyString
  | String c r =>
      if Ascii.eqb c NUL then String NUL (garbage (S i) (String.length r))
      else String c (copy_from (S i) r)
  end.

Definition copy (s : string) : string := copy_from 0 s.

(** [command.trim(); command.toUpperCase();] on the by-value copy. *)
Definition normalize (command : string) : string :=
  toUpperCase (trim (copy command)).

Definition processCommand (command : string) : Stmt :=
  dispatch (normalize command).

(** [serialEvent]: [rx] is what [Serial] holds when the function is
    entered; the [while (Serial.available())] loop consumes all of it,
    one [inChar] per round. *)
Definition receive (inChar : ascii) : Stmt :=
  (fun s => set_inputString (inputString s ++ String inChar EmptyString) s) ;;
  (WHEN (fun _ => Ascii.eqb inChar LF) THEN set_stringComplete true).

Fixpoint serialEvent (rx : string) : Stmt :=
  match rx with
  | EmptyString => skip
  | String inChar rest => receive inChar ;; serialEvent rest
  end.

Definition azimuthGate (s : Ctl) : bool := testAzimuthOnly s || testBothMotors s.
Definition altitudeGate (s : Ctl) : bool := testAltitudeOnly s || testBothMotors s.

Definition loop : Stmt :=
  (WHEN stringComplete THEN
     (fun s => processCommand (inputString s) s) ;;
     set_inputString EmptyString ;;
     set_stringComplete false) ;;
  (WHEN (fun s => azimuthMoving s && azimuthGate s) THEN moveAzimuthMotor) ;;
  (WHEN (fun s => altitudeMoving s && altitudeGate s) THEN moveAltitudeMotor).

(** The state when [loop] is entered for the first time. *)
Definition startup : Ctl := setup initial.

(* ================================================================= *)
(** ** Runs of the controller *)

(** The Arduino runtime calls [loop] for ever, and [serialEvent]
    between two calls when bytes have arrived. *)
Inductive Event : Type :=
| Rx (bytes : string)     (* [serialEvent] finds [bytes] in the receiver *)
| Loop.                   (* one iteration of [loop] *)

Definition fire (e : Event) : Stmt :=
  match e with
  | Rx bytes => serialEvent bytes
  | Loop => loop
  end.

Definition run (es : list Event) : Stmt :=
  fun s => fold_left (fun acc e => fire e acc) es s.

Inductive reachable : Ctl -> Prop :=
| reach_startup : reachable startup
| reach_fire e s : reachable s -> reachable (fire e s).

(** [n] iterations of [loop] with no byte arriving in between. *)
Fixpoint loops (n : nat) : Stmt :=
  match n with
  | O => skip
  | S k => loop ;; loops k
  end.

(** A line received as one burst, terminator included. *)
Definition terminated (text : string) : string := text ++ String LF EmptyString.
Definition line (text : string) : Event := Rx (terminated text).

(* ================================================================= *)
(** ** The two axes, side by side *)

Inductive Axis : Type := Azimuth | Altitude.

Definition position (a : Axis) (s : Ctl) : Z :=
  match a with Azimuth => azimuthStep s | Altitude => altitudeStep s end.
Definition target (a : Axis) (s : Ctl) : Z :=
  match a with Azimuth => azimuthTarget s | Altitude => altitudeTarget s end.
Definition moving (a : Axis) (s : Ctl) : bool :=
  match a with Azimuth => azimuthMoving s | Altitude => altitudeMoving s end.
Definition gate (a : Axis) (s : Ctl) : bool :=
  match a with Azimuth => azimuthGate s | Altitude => altitudeGate s end.
Definition axisMax (a : Axis) : Z :=
  match a with Azimuth => AZIMUTH_MAX_STEPS | Altitude => ALTITUDE_MAX_STEPS end.
Definition pins (a : Axis) : list Z :=
  match a with Azimuth => azimuthPins | Altitude => altitudePins end.
Definition setTarget (a : Axis) (steps : Z) : Stmt :=
  match a with Azimuth => moveAzimuthTo steps | Altitude => moveAltitudeTo steps end.
Definition tick (a : Axis) : Stmt :=
  match a with Azimuth => moveAzimuthMotor | Altitude => moveAltitudeMotor end.
Definition reachedNote (a : Axis) : string :=
  match a with
  | Azimuth => "AZIMUTH: Target reached"
  | Altitude => "ALTITUDE: Target reached"
  end.

(* ================================================================= *)
(** ** Vocabulary of the specification *)

(** The closed interval clamp the specification speaks of. *)
Definition clamp (x lo hi : Z) : Z := Z.max lo (Z.min x hi).

(** The table entry at a phase index. *)
Definition pattern (i : Z) : list Z := nth (Z.to_nat i) stepSequence [].

(** The four [digitalWrite] calls that put the pattern of phase [i] on
    the pins [p]. *)
Definition coil_writes (p : list Z) (i : Z) : list (Z * Z) :=
  map (fun k => (nth k p 0, nth k (pattern i) 0)) (List.seq 0 4).

(** What a statement adds to the pin log. *)
Definition writes (f : Stmt) (s : Ctl) : list (Z * Z) :=
  skipn (List.length (pinLog s)) (pinLog (f s)).

(** The number of physical steps a statement performs: every step is
    one pattern, four pin writes. *)
Definition physical_steps (f : Stmt) (s : Ctl) : Z :=
  Z.of_nat (List.length (writes f s)) / 4.

Definition CRLF : string := String CR (String LF EmptyString).

(* ================================================================= *)
(** ** Notions used in the statements *)

(** [k] steps in the same direction. *)
Fixpoint stepMany (p : list Z) (d : Z) (k : nat) : Stmt :=
  match k with
  | O => skip
  | S k' => stepMotor p d ;; stepMany p d k'
  end.

Definition set_position (a : Axis) (v : Z) : Stmt :=
  match a with Azimuth => set_azimuthStep v | Altitude => set_altitudeStep v end.

Definition set_moving (a : Axis) (v : bool) : Stmt :=
  match a with Azimuth => set_azimuthMoving v | Altitude => set_altitudeMoving v end.

Definition other (a : Axis) : Axis :=
  match a with Azimuth => Altitude | Altitude => Azimuth end.

(** The values of an [int]. *)
Definition is_int (z : Z) : Prop := - 2 ^ 15 <= z < 2 ^ 15.

(** The gated tick of [loop]: [if (moving && gate) tick ()]. *)
Definition gatedTick (a : Axis) : Stmt :=
  WHEN (fun s => moving a s && gate a s) THEN tick a.

(** A property of the state that a statement never breaks. *)
Definition preserves (P : Ctl -> Prop) (f : Stmt) : Prop :=
  forall s, P s -> P (f s).

(** The two assignments of the STOP command. *)
Definition stopAll : Stmt :=
  set_azimuthMoving false ;; set_altitudeMoving false.

(** [loop] is about to dispatch STOP. *)
Definition dispatchesStop (s : Ctl) : bool :=
  stringComplete s && equals (normalize (inputString s)) "STOP".

(** The first [if] of [loop]: a pending line is dispatched and the
    buffer is reset. *)
Definition intake : Stmt :=
  WHEN stringComplete THEN
    (fun s => processCommand (inputString s) s) ;;
    set_inputString EmptyString ;;
    set_stringComplete false.

Definition in_range (a : Axis) (s : Ctl) : Prop :=
  0 <= position a s <= axisMax a /\ 0 <= target a s <= axisMax a.

Definition Bounded (s : Ctl) : Prop := forall a, in_range a s.

(** The phase index points into the table. *)
Definition Phased (s : Ctl) : Prop := 0 <= currentStep s < 8.

(** An axis away from its target is moving. *)
Definition Armed (s : Ctl) : Prop :=
  forall a : Axis, position a s <> target a s -> moving a s = true.

(** The states the controller reaches when no STOP is dispatched. *)
Inductive reachable_without_stop : Ctl -> Prop :=
| rws_startup : reachable_without_stop startup
| rws_rx bytes s :
    reachable_without_stop s ->
    reachable_without_stop (serialEvent bytes s)
| rws_loop s :
    reachable_without_stop s ->
    dispatchesStop s = false ->
    reachable_without_stop (loop s).

(** The commands of the protocol, on a normalized line. *)
Definition recognized (command : string) : bool :=
  startsWith command "AZ," || startsWith command "AL," ||
  equals command "STATUS" || equals command "HOME" ||
  equals command "STOP" || equals command "HELP" ||
  equals command "TEST_AZ" || equals command "TEST_AL" ||
  equals command "TEST_BOTH" || equals command "TEST_MODE".

Definition unknownNote (command : string) : string :=
  ("ERROR: Unknown command '" ++ command ++
   "'. Type HELP for available commands.")%string.

Definition axisPrefix (a : Axis) : string :=
  match a with Azimuth => "AZ," | Altitude => "AL," end.

Definition movingNote (a : Axis) : string :=
  match a with
  | Azimuth => "AZIMUTH: Moving to step "
  | Altitude => "ALTITUDE: Moving to step "
  end.

(** The value of [steps] in the AZ and AL branches of [processCommand]. *)
Definition parsed_steps (command : string) : Z :=
  wrap16 (toInt (substring_from 3 command)).

Fixpoint all_digits (s : string) : bool :=
  match s with
  | EmptyString => true
  | String c r => isdigit c && all_digits r
  end.

Definition nonempty (s : string) : bool :=
  match s with EmptyString => false | String _ _ => true end.

(** A numeric argument, in the words of the specification: the text is
    a decimal integer, that is one or more digits, possibly after one
    sign, and nothing else. *)
Definition is_numeral (s : string) : bool :=
  match s with
  | EmptyString => false
  | String c r =>
      if Ascii.eqb c "-" || Ascii.eqb c "+"
      then nonempty r && all_digits r
      else all_digits s
  end.

Definition starts_with_digit (s : string) : bool :=
  match s with EmptyString => false | String c _ => isdigit c end.

(** The text does not begin with a number: after the white space at its
    front and one optional sign, there is no digit. *)
Definition no_leading_number (s : string) : bool :=
  match skip_space s with
  | EmptyString => true
  | String c r =>
      if Ascii.eqb c "-" || Ascii.eqb c "+"
      then negb (starts_with_digit r)
      else negb (isdigit c)
  end.

(** Physical steps of the two motors in any order: each entry is the
    axis that steps and its direction. *)
Fixpoint interleave (steps : list (Axis * Z)) : Stmt :=
  match steps with
  | [] => skip
  | (a, d) :: rest => stepMotor (pins a) d ;; interleave rest
  end.

(** The signed number of steps, both axes counted together. *)
Definition net_steps (steps : list (Axis * Z)) : Z :=
  fold_right (fun x acc => snd x + acc) 0 steps.

(** The signed number of steps of one axis. *)
Definition net_steps_of (a : Axis) (steps : list (Axis * Z)) : Z :=
  fold_right
    (fun x acc => match a, fst x with
                  | Azimuth, Azimuth | Altitude, Altitude => snd x + acc
                  | _, _ => acc
                  end) 0 steps.

Definition directed (x : Axis * Z) : Prop := snd x = 1 \/ snd x = -1.

(** The levels a pattern write puts on the four pins. *)
Definition levels (w : list (Z * Z)) : list Z := map snd w.

(* ================================================================= *)
(** ** Further notions: the whole controller *)

(** Exactly one of the three test-mode flags is set. *)
Definition oneMode (s : Ctl) : Prop :=
  (testAzimuthOnly s = true /\ testAltitudeOnly s = false /\
   testBothMotors s = false) \/
  (testAzimuthOnly s = false /\ testAltitudeOnly s = true /\
   testBothMotors s = false) \/
  (testAzimuthOnly s = false /\ testAltitudeOnly s = false /\
   testBothMotors s = true).

(** The name STATUS prints for the selector. *)
Definition modeName (s : Ctl) : string :=
  if testAzimuthOnly s then "AZ_ONLY"
  else if testAltitudeOnly s then "AL_ONLY"
  else "BOTH".

(** The line STATUS prints, without its terminator. *)
Definition statusLine (s : Ctl) : string :=
  ("STATUS: AZ=" ++ print_int (azimuthStep s) ++
   ", AL=" ++ print_int (altitudeStep s) ++
   ", AZ_MOVING=" ++ bit (azimuthMoving s) ++
   ", AL_MOVING=" ++ bit (altitudeMoving s) ++
   ", TEST_MODE=" ++ modeName s)%string.

(** Everything of the state but the text sent to [Serial]. *)
Definition same_but_output (s s' : Ctl) : Prop :=
  azimuthStep s' = azimuthStep s /\ altitudeStep s' = altitudeStep s /\
  azimuthTarget s' = azimuthTarget s /\ altitudeTarget s' = altitudeTarget s /\
  azimuthMoving s' = azimuthMoving s /\ altitudeMoving s' = altitudeMoving s /\
  testAzimuthOnly s' = testAzimuthOnly s /\
  testAltitudeOnly s' = testAltitudeOnly s /\
  testBothMotors s' = testBothMotors s /\
  inputString s' = inputString s /\ stringComplete s' = stringComplete s /\
  currentStep s' = currentStep s /\ pinLog s' = pinLog s.

(** What no command touches: positions, phase index, pins and the
    line buffer. *)
Definition same_mechanics (s s' : Ctl) : Prop :=
  azimuthStep s' = azimuthStep s /\ altitudeStep s' = altitudeStep s /\
  currentStep s' = currentStep s /\ pinLog s' = pinLog s /\
  inputString s' = inputString s /\ stringComplete s' = stringComplete s.

(** The text holds white space only. *)
Fixpoint all_space (s : string) : bool :=
  match s with
  | EmptyString => true
  | String c r => isspace c && all_space r
  end.

(** The text holds a line feed. *)
Fixpoint has_LF (s : string) : bool :=
  match s with
  | EmptyString => false
  | String c r => Ascii.eqb c LF || has_LF r
  end.

(** The number of places at which two patterns differ. *)
Fixpoint differing (p q : list Z) : nat :=
  match p, q with
  | x :: p', y :: q' => ((if (x =? y)%Z then 0 else 1) + differing p' q')%nat
  | _, _ => 0%nat
  end.

(** The number of energized coils of a pattern. *)
Definition energized (p : list Z) : nat :=
  List.length (filter (fun x => x =? 1) p).

(** The text holds no white space. *)
Fixpoint no_space (s : string) : bool :=
  match s with
  | EmptyString => true
  | String c r => negb (isspace c) && no_space r
  end.

(** The text holds no NUL. *)
Fixpoint no_NUL (s : string) : bool :=
  match s with
  | EmptyString => true
  | String c r => negb (Ascii.eqb c NUL) && no_NUL r
  end.

(** A heap in which every byte is NUL, to run the sketch on. *)
Definition zeroed : nat -> ascii := fun _ => NUL.

(** The value of a decimal numeral read from the left, [acc] being the
    value of the digits already read. *)
Fixpoint uint_value (d : Decimal.uint) (acc : Z) : Z :=
  match d with
  | Decimal.Nil => acc
  | Decimal.D0 l => uint_value l (acc * 10 + 0)
  | Decimal.D1 l => uint_value l (acc * 10 + 1)
  | Decimal.D2 l => uint_value l (acc * 10 + 2)
  | Decimal.D3 l => uint_value l (acc * 10 + 3)
  | Decimal.D4 l => uint_value l (acc * 10 + 4)
  | Decimal.D5 l => uint_value l (acc * 10 + 5)
  | Decimal.D6 l => uint_value l (acc * 10 + 6)
  | Decimal.D7 l => uint_value l (acc * 10 + 7)
  | Decimal.D8 l => uint_value l (acc * 10 + 8)
  | Decimal.D9 l => uint_value l (acc * 10 + 9)
  end.

(* ================================================================= *)
(** ** Phase sequencer *)

Section PhaseSequencer.

Variable motorPins : list Z.

Lemma stepMotor_currentStep d s :
  currentStep (stepMotor motorPins d s) =
  if d >? 0 then Z.rem (currentStep s + 1) 8
  else Z.rem (currentStep s - 1 + 8) 8.
Proof.
  unfold stepMotor, seq, ifte. destruct (d >? 0); reflexivity.
Qed.

Lemma stepMotor_pinLog d s :
  pinLog (stepMotor motorPins d s) =
  (pinLog s ++ coil_writes motorPins (currentStep (stepMotor motorPins d s)))%list.
Proof.
  unfold stepMotor, seq, ifte, coil_writes, pattern.
  destruct (d >? 0); cbn [for_upto List.seq fold_left map digitalWrite pinLog
                          set_currentStep currentStep];
    rewrite <- !app_assoc; reflexivity.
Qed.

Lemma stepMotor_writes d s :
  writes (stepMotor motorPins d) s =
  coil_writes motorPins (currentStep (stepMotor motorPins d s)).
Proof.
  unfold writes. rewrite stepMotor_pinLog.
  rewrite skipn_app, skipn_all, Nat.sub_diag. reflexivity.
Qed.

(** [stepMotor] touches the phase index and the pins, nothing else. *)
Lemma stepMotor_frame d s :
  let s' := stepMotor motorPins d s in
  azimuthStep s' = azimuthStep s /\ altitudeStep s' = altitudeStep s /\
  azimuthTarget s' = azimuthTarget s /\ altitudeTarget s' = altitudeTarget s /\
  azimuthMoving s' = azimuthMoving s /\ altitudeMoving s' = altitudeMoving s /\
  testAzimuthOnly s' = testAzimuthOnly s /\
  testAltitudeOnly s' = testAltitudeOnly s /\
  testBothMotors s' = testBothMotors s /\
  inputString s' = inputString s /\ stringComplete s' = stringComplete s /\
  serialOut s' = serialOut s.
Proof.
  unfold stepMotor, seq, ifte. destruct (d >? 0); cbn; repeat split.
Qed.

End PhaseSequencer.

(** On a phase index of the table, C's remainder is the non-negative
    modulo. *)
Lemma next_index_mod i d :
  0 <= i < 8 -> d = 1 \/ d = -1 ->
  (if d >? 0 then Z.rem (i + 1) 8 else Z.rem (i - 1 + 8) 8) = (i + d) mod 8.
Proof.
  intros Hi [-> | ->]; cbn [Z.gtb Z.compare].
  - rewrite Z.rem_mod_nonneg by lia. reflexivity.
  - rewrite Z.rem_mod_nonneg by lia.
    replace (i - 1 + 8) with (i + -1 + 1 * 8) by lia.
    apply Z.mod_add. lia.
Qed.

Lemma stepMotor_index p d s :
  0 <= currentStep s < 8 -> d = 1 \/ d = -1 ->
  currentStep (stepMotor p d s) = (currentStep s + d) mod 8.
Proof.
  intros Hi Hd. rewrite stepMotor_currentStep. now apply next_index_mod.
Qed.

Lemma stepMotor_index_range p d s :
  0 <= currentStep s < 8 -> d = 1 \/ d = -1 ->
  0 <= currentStep (stepMotor p d s) < 8.
Proof.
  intros Hi Hd. rewrite stepMotor_index by assumption.
  apply Z.mod_pos_bound. lia.
Qed.

Lemma stepMany_index p d k : forall s,
  0 <= currentStep s < 8 -> d = 1 \/ d = -1 ->
  currentStep (stepMany p d k s) = (currentStep s + Z.of_nat k * d) mod 8.
Proof.
  induction k as [|k IH]; intros s Hi Hd.
  - cbn [stepMany]. unfold skip. change (Z.of_nat 0) with 0.
    rewrite Z.mul_0_l, Z.add_0_r, Z.mod_small by lia. reflexivity.
  - cbn [stepMany]. unfold seq.
    rewrite IH by (auto using stepMotor_index_range).
    rewrite stepMotor_index by assumption.
    rewrite Zplus_mod_idemp_l. f_equal. lia.
Qed.

(** The eight patterns of the table are pairwise different. *)
Lemma pattern_injective i j :
  0 <= i < 8 -> 0 <= j < 8 -> pattern i = pattern j -> i = j.
Proof.
  intros Hi Hj.
  assert (Ei : i = 0 \/ i = 1 \/ i = 2 \/ i = 3 \/ i = 4 \/ i = 5 \/ i = 6 \/ i = 7) by lia.
  assert (Ej : j = 0 \/ j = 1 \/ j = 2 \/ j = 3 \/ j = 4 \/ j = 5 \/ j = 6 \/ j = 7) by lia.
  repeat (destruct Ei as [-> | Ei]); try subst i;
    repeat (destruct Ej as [-> | Ej]); try subst j;
    cbv [pattern stepSequence nth Z.to_nat Pos.to_nat Pos.iter_op Nat.add];
    intros E; try reflexivity; discriminate E.
Qed.

Lemma stepMany_out_of_phase p d k s :
  0 <= currentStep s < 8 -> d = 1 \/ d = -1 -> (0 < k < 8)%nat ->
  currentStep (stepMany p d k s) <> currentStep s.
Proof.
  intros Hi Hd Hk E.
  rewrite stepMany_index in E by assumption.
  pose proof (Z.div_mod (currentStep s + Z.of_nat k * d) 8 ltac:(lia)) as Hdm.
  rewrite E in Hdm.
  destruct Hd as [-> | ->]; lia.
Qed.

(** C4.  Phase sequencer.  From a phase index [i] of the table and a
    direction [d] of [+1] or [-1], [stepMotor] moves the index to
    [(i + d) mod 8], the non-negative modulo (from [0], direction [-1]
    leads to [7]), and writes to the motor's pins the table entry at
    the new index.  Stepping in one direction is cyclic with period
    exactly 8, and a step in the opposite direction leads straight back
    to the index just left: nothing is skipped, nothing repeated. *)
Theorem sequencer_next_phase (p : list Z) (d : Z) (s : Ctl) :
  0 <= currentStep s < 8 ->
  d = 1 \/ d = -1 ->
  let i := currentStep s in
  let s' := stepMotor p d s in
  currentStep s' = (i + d) mod 8 /\
  0 <= currentStep s' < 8 /\
  (i = 0 /\ d = -1 -> currentStep s' = 7) /\
  writes (stepMotor p d) s = coil_writes p ((i + d) mod 8) /\
  currentStep (stepMany p d 8 s) = i /\
  (forall k, (0 < k < 8)%nat -> currentStep (stepMany p d k s) <> i) /\
  currentStep s' <> i /\
  currentStep (stepMotor p (- d) s') = i.
Proof.
  intros Hi Hd i s'.
  assert (Hnew : currentStep s' = (i + d) mod 8) by now apply stepMotor_index.
  assert (Hrange : 0 <= currentStep s' < 8) by now apply stepMotor_index_range.
  repeat split; try assumption; try lia.
  - intros [Hz Hm]. rewrite Hnew, Hz, Hm. reflexivity.
  - rewrite stepMotor_writes. fold s'. now rewrite Hnew.
  - rewrite stepMany_index by assumption. change (Z.of_nat 8) with 8.
    replace (currentStep s + 8 * d) with (currentStep s + d * 8) by lia.
    rewrite Z.mod_add, Z.mod_small by lia. reflexivity.
  - intros k Hk. now apply stepMany_out_of_phase.
  - change (currentStep (stepMany p d 1 s) <> currentStep s).
    apply stepMany_out_of_phase; auto; lia.
  - rewrite stepMotor_index by (auto; lia).
    rewrite Hnew, Zplus_mod_idemp_l.
    replace (i + d + - d) with i by lia. apply Z.mod_small. exact Hi.
Qed.

Lemma sequencer_next_phase_witness :
  currentStep (stepMotor azimuthPins (-1) startup) = 7 /\
  writes (stepMotor azimuthPins (-1)) startup =
    [(2, 1); (3, 0); (4, 0); (5, 1)].
Proof.
  pose proof (sequencer_next_phase azimuthPins (-1) startup
                ltac:(cbn; lia) ltac:(right; reflexivity)) as H.
  cbv zeta in H. destruct H as (H1 & _ & _ & H4 & _).
  split; [exact H1 | exact H4].
Defined.

(* ================================================================= *)
(** ** Axis controller: [setTarget] *)

Lemma constrain_clamp x lo hi :
  lo <= hi -> constrain x lo hi = clamp x lo hi.
Proof.
  intros H. unfold constrain, clamp.
  destruct (Z.ltb_spec x lo); [lia|].
  destruct (x >? hi) eqn:E.
  - apply Z.gtb_lt in E. lia.
  - assert (x <= hi) by (rewrite Z.gtb_ltb in E; apply Z.ltb_ge in E; exact E).
    lia.
Qed.

Lemma axisMax_pos a : 0 <= axisMax a.
Proof. destruct a; vm_compute; discriminate. Qed.

Lemma setTarget_target a steps s :
  target a (setTarget a steps s) = clamp steps 0 (axisMax a).
Proof.
  destruct a; cbn; apply constrain_clamp; vm_compute; discriminate.
Qed.

(** C3.  [setTarget] stores the requested step count clamped to
    [0 .. axisMax] (so the raw input is stored exactly when it lies in
    that interval), where the azimuth maximum is the step count of one
    revolution, 2048, and the altitude maximum half of it, 1024; and it
    sets the moving flag whatever the state is, in particular when the
    stored target is the current position, which it leaves alone. *)
Theorem setTarget_stores_clamped (a : Axis) (steps : Z) (s : Ctl) :
  let s' := setTarget a steps s in
  target a s' = clamp steps 0 (axisMax a) /\
  0 <= target a s' <= axisMax a /\
  (target a s' = steps <-> 0 <= steps <= axisMax a) /\
  moving a s' = true /\
  position a s' = position a s /\
  axisMax Azimuth = STEPS_PER_REVOLUTION /\
  STEPS_PER_REVOLUTION = 2048 /\
  axisMax Altitude = STEPS_PER_REVOLUTION / 2 /\
  axisMax Altitude = 1024.
Proof.
  intros s'. subst s'. rewrite setTarget_target.
  pose proof (axisMax_pos a) as Hmax.
  repeat split; try (unfold clamp in *; lia); try (destruct a; reflexivity).
Qed.

(* ================================================================= *)
(** ** Axis controller: [tick] *)

(** The three branches of [moveAzimuthMotor] / [moveAltitudeMotor]. *)
Lemma tick_below a s :
  position a s < target a s ->
  tick a s = stepMotor (pins a) 1 (set_position a (position a s + 1) s).
Proof.
  intros H. destruct a; cbn in H |- *;
    unfold moveAzimuthMotor, moveAltitudeMotor, ifte, seq;
    apply Z.ltb_lt in H; rewrite H; reflexivity.
Qed.

Lemma tick_above a s :
  position a s > target a s ->
  tick a s = stepMotor (pins a) (-1) (set_position a (position a s - 1) s).
Proof.
  intros H.
  assert (H1 : (position a s <? target a s) = false) by (apply Z.ltb_ge; lia).
  assert (H2 : (position a s >? target a s) = true) by (apply Z.gtb_lt; lia).
  destruct a; cbn in H1, H2 |- *;
    unfold moveAzimuthMotor, moveAltitudeMotor, ifte, seq;
    rewrite H1, H2; reflexivity.
Qed.

Lemma tick_at a s :
  position a s = target a s ->
  tick a s = Serial_println (reachedNote a) (set_moving a false s).
Proof.
  intros H.
  assert (H1 : (position a s <? target a s) = false) by (apply Z.ltb_ge; lia).
  assert (H2 : (position a s >? target a s) = false).
  { rewrite Z.gtb_ltb. apply Z.ltb_ge. lia. }
  destruct a; cbn in H1, H2 |- *;
    unfold moveAzimuthMotor, moveAltitudeMotor, ifte, seq;
    rewrite H1, H2; reflexivity.
Qed.

Lemma writes_nil f s : pinLog (f s) = pinLog s -> writes f s = [].
Proof. intros E. unfold writes. rewrite E. apply skipn_all. Qed.

Lemma physical_steps_stepMotor p d s : physical_steps (stepMotor p d) s = 1.
Proof. unfold physical_steps. rewrite stepMotor_writes. reflexivity. Qed.

(** A moving step of [tick]: the position moves by [d], the sequencer
    steps once in direction [d], nothing is printed. *)
Lemma tick_moves a d s :
  0 <= currentStep s < 8 -> d = 1 \/ d = -1 ->
  tick a s = stepMotor (pins a) d (set_position a (position a s + d) s) ->
  let s' := tick a s in
  position a s' = position a s + d /\
  currentStep s' = (currentStep s + d) mod 8 /\
  writes (tick a) s = coil_writes (pins a) ((currentStep s + d) mod 8) /\
  physical_steps (tick a) s = 1 /\
  moving a s' = moving a s /\
  serialOut s' = serialOut s.
Proof.
  intros Hi Hd E s'. subst s'.
  set (s1 := set_position a (position a s + d) s) in *.
  assert (Hc : currentStep s1 = currentStep s) by (destruct a; reflexivity).
  assert (Hp : pinLog s1 = pinLog s) by (destruct a; reflexivity).
  assert (Hw : writes (tick a) s = writes (stepMotor (pins a) d) s1).
  { unfold writes. now rewrite E, Hp. }
  pose proof (stepMotor_frame (pins a) d s1) as F. cbv zeta in F.
  destruct F as (F1 & F2 & _ & _ & F5 & F6 & _ & _ & _ & _ & _ & F12).
  assert (Hi1 : 0 <= currentStep s1 < 8) by now rewrite Hc.
  repeat split.
  - rewrite E. destruct a; cbn [position]; [rewrite F1 | rewrite F2]; reflexivity.
  - rewrite E, stepMotor_index by assumption. now rewrite Hc.
  - rewrite Hw, stepMotor_writes, stepMotor_index by assumption.
    now rewrite Hc.
  - unfold physical_steps. rewrite Hw.
    apply (physical_steps_stepMotor (pins a) d s1).
  - rewrite E. destruct a; cbn [moving]; [rewrite F5 | rewrite F6]; reflexivity.
  - rewrite E, F12. destruct a; reflexivity.
Qed.

(** A tick of one axis leaves the other axis and the target alone. *)
Lemma tick_frame a s :
  let s' := tick a s in
  target a s' = target a s /\
  position (other a) s' = position (other a) s /\
  target (other a) s' = target (other a) s /\
  moving (other a) s' = moving (other a) s /\
  testAzimuthOnly s' = testAzimuthOnly s /\
  testAltitudeOnly s' = testAltitudeOnly s /\
  testBothMotors s' = testBothMotors s /\
  inputString s' = inputString s /\
  stringComplete s' = stringComplete s.
Proof.
  cbv zeta.
  destruct (Z.lt_trichotomy (position a s) (target a s)) as [H | [H | H]].
  - rewrite tick_below by assumption.
    pose proof (stepMotor_frame (pins a) 1
                  (set_position a (position a s + 1) s)) as F.
    cbv zeta in F. destruct a; cbn [target position moving other];
      intuition congruence.
  - rewrite tick_at by assumption. destruct a; repeat split.
  - rewrite tick_above by lia.
    pose proof (stepMotor_frame (pins a) (-1)
                  (set_position a (position a s - 1) s)) as F.
    cbv zeta in F. destruct a; cbn [target position moving other];
      intuition congruence.
Qed.

(** C2 (as amended).  One tick of an axis, from any state whose phase
    index is in the table: below the target the position grows by
    exactly one and the sequencer steps forward once; above the target
    the position shrinks by exactly one and the sequencer steps backward
    once; at the target the moving flag is cleared, the "target reached"
    line is printed, the position stays and no physical step is made.
    So a tick makes at most one physical step: exactly one when the
    position differs from the target, none on arrival.  The target and
    the other axis are not touched. *)
Theorem tick_one_step_toward_target (a : Axis) (s : Ctl) :
  0 <= currentStep s < 8 ->
  let s' := tick a s in
  (position a s < target a s ->
     position a s' = position a s + 1 /\
     currentStep s' = (currentStep s + 1) mod 8 /\
     writes (tick a) s = coil_writes (pins a) ((currentStep s + 1) mod 8) /\
     physical_steps (tick a) s = 1 /\
     moving a s' = moving a s /\
     serialOut s' = serialOut s) /\
  (position a s > target a s ->
     position a s' = position a s - 1 /\
     currentStep s' = (currentStep s - 1) mod 8 /\
     writes (tick a) s = coil_writes (pins a) ((currentStep s - 1) mod 8) /\
     physical_steps (tick a) s = 1 /\
     moving a s' = moving a s /\
     serialOut s' = serialOut s) /\
  (position a s = target a s ->
     moving a s' = false /\
     serialOut s' = (serialOut s ++ reachedNote a ++ CRLF)%string /\
     position a s' = position a s /\
     currentStep s' = currentStep s /\
     writes (tick a) s = [] /\
     physical_steps (tick a) s = 0) /\
  target a s' = target a s /\
  position (other a) s' = position (other a) s /\
  target (other a) s' = target (other a) s /\
  moving (other a) s' = moving (other a) s.
Proof.
  intros Hi s'.
  pose proof (tick_frame a s) as F. cbv zeta in F. fold s' in F.
  split; [| split; [| split]].
  - intros H. apply (tick_moves a 1 s Hi); [now left | now apply tick_below].
  - intros H. apply (tick_moves a (-1) s Hi); [now right | now apply tick_above].
  - intros H. subst s'.
    assert (Hw : writes (tick a) s = []).
    { apply writes_nil. rewrite tick_at by assumption. destruct a; reflexivity. }
    unfold physical_steps. rewrite Hw.
    rewrite tick_at by assumption. destruct a; repeat split.
  - intuition.
Qed.

Lemma tick_one_step_toward_target_witness :
  let s := set_azimuthTarget 2 startup in
  position Azimuth (tick Azimuth s) = 1 /\
  currentStep (tick Azimuth s) = 1 /\
  writes (tick Azimuth) s = [(2, 1); (3, 1); (4, 0); (5, 0)].
Proof.
  pose proof (tick_one_step_toward_target Azimuth (set_azimuthTarget 2 startup)
                ltac:(cbn; lia)) as H.
  cbv zeta in H. destruct H as (H & _).
  specialize (H ltac:(cbn; lia)). destruct H as (H1 & H2 & H3 & _).
  cbv zeta. split; [exact H1 | split; [exact H2 | exact H3]].
Defined.

(* ================================================================= *)
(** ** The control loop without pending input *)

(** What a tick does to its own axis, in closed form. *)
Lemma tick_axis a s :
  position a (tick a s) =
    position a s + Z.sgn (target a s - position a s) /\
  moving a (tick a s) = moving a s && negb (position a s =? target a s).
Proof.
  destruct (Z.lt_trichotomy (position a s) (target a s)) as [H | [H | H]].
  - rewrite tick_below by assumption.
    pose proof (stepMotor_frame (pins a) 1
                  (set_position a (position a s + 1) s)) as F.
    cbv zeta in F. destruct F as (F1 & F2 & _ & _ & F5 & F6 & _).
    replace (position a s =? target a s) with false
      by (symmetry; apply Z.eqb_neq; lia).
    rewrite Z.sgn_pos, andb_true_r by lia.
    destruct a;
      cbn [position moving pins set_position set_azimuthStep set_altitudeStep
           azimuthStep altitudeStep azimuthMoving altitudeMoving] in *;
      split; congruence.
  - rewrite tick_at, H, Z.sub_diag, Z.eqb_refl, andb_false_r by assumption.
    destruct a; cbn in H |- *; split; (reflexivity || lia).
  - rewrite tick_above by lia.
    pose proof (stepMotor_frame (pins a) (-1)
                  (set_position a (position a s - 1) s)) as F.
    cbv zeta in F. destruct F as (F1 & F2 & _ & _ & F5 & F6 & _).
    replace (position a s =? target a s) with false
      by (symmetry; apply Z.eqb_neq; lia).
    rewrite Z.sgn_neg, andb_true_r by lia.
    destruct a;
      cbn [position moving pins set_position set_azimuthStep set_altitudeStep
           azimuthStep altitudeStep azimuthMoving altitudeMoving] in *;
      split; (congruence || lia).
Qed.

(** [azimuthStep++] and [azimuthStep--] (and the same for the altitude)
    do not overflow: the new position lies between the old one and the
    target. *)
Lemma tick_within_int a s :
  is_int (position a s) -> is_int (target a s) ->
  is_int (position a (tick a s)) /\
  wrap16 (position a (tick a s)) = position a (tick a s).
Proof.
  unfold is_int. intros Hp Ht.
  destruct (tick_axis a s) as [E _]. rewrite E.
  assert (Hs : - 2 ^ 15 <= position a s + Z.sgn (target a s - position a s)
               < 2 ^ 15).
  { destruct (Z.lt_trichotomy (position a s) (target a s)) as [L | [L | L]].
    - rewrite Z.sgn_pos by lia. lia.
    - rewrite L, Z.sub_diag. cbn [Z.sgn]. lia.
    - rewrite Z.sgn_neg by lia. lia. }
  split; [exact Hs|].
  unfold wrap16, wrap. change (2 ^ (16 - 1)) with (2 ^ 15).
  rewrite Z.mod_small; lia.
Qed.

Lemma gate_flags a s s' :
  testAzimuthOnly s' = testAzimuthOnly s ->
  testAltitudeOnly s' = testAltitudeOnly s ->
  testBothMotors s' = testBothMotors s ->
  gate a s' = gate a s.
Proof.
  intros E1 E2 E3. destruct a; cbn; unfold azimuthGate, altitudeGate; congruence.
Qed.

Lemma gatedTick_own a s :
  position a (gatedTick a s) =
    (if moving a s && gate a s
     then position a s + Z.sgn (target a s - position a s)
     else position a s) /\
  moving a (gatedTick a s) =
    moving a s && negb (gate a s && (position a s =? target a s)) /\
  target a (gatedTick a s) = target a s.
Proof.
  unfold gatedTick, ifte, skip.
  destruct (moving a s) eqn:Em, (gate a s) eqn:Eg; cbn [andb negb];
    rewrite ?Em; auto.
  destruct (tick_axis a s) as [E1 E2]. rewrite E1, E2, Em.
  pose proof (tick_frame a s) as F. cbv zeta in F. intuition.
Qed.

Lemma gatedTick_frame a s :
  let s' := gatedTick a s in
  position (other a) s' = position (other a) s /\
  target (other a) s' = target (other a) s /\
  moving (other a) s' = moving (other a) s /\
  (forall b, gate b s' = gate b s) /\
  stringComplete s' = stringComplete s /\
  inputString s' = inputString s.
Proof.
  unfold gatedTick, ifte, skip. cbv zeta.
  destruct (moving a s && gate a s); [| now repeat split].
  pose proof (tick_frame a s) as F. cbv zeta in F.
  destruct F as (_ & F1 & F2 & F3 & F4 & F5 & F6 & F7 & F8).
  repeat split; try assumption. intros b. now apply gate_flags.
Qed.

Lemma loop_idle s :
  stringComplete s = false ->
  loop s = gatedTick Altitude (gatedTick Azimuth s).
Proof.
  intros H. unfold loop, seq. unfold ifte at 3. rewrite H. reflexivity.
Qed.

(** One iteration of [loop] with no line pending, seen from one axis. *)
Lemma loop_idle_axis a s :
  stringComplete s = false ->
  let s' := loop s in
  position a s' =
    (if moving a s && gate a s
     then position a s + Z.sgn (target a s - position a s)
     else position a s) /\
  moving a s' =
    moving a s && negb (gate a s && (position a s =? target a s)) /\
  target a s' = target a s /\
  gate a s' = gate a s /\
  stringComplete s' = false.
Proof.
  intros H. cbv zeta. rewrite loop_idle by assumption.
  pose proof (gatedTick_frame Azimuth s) as FA. cbv zeta in FA.
  pose proof (gatedTick_frame Altitude (gatedTick Azimuth s)) as FL.
  cbv zeta in FL.
  destruct FA as (A1 & A2 & A3 & A4 & A5 & _).
  destruct FL as (L1 & L2 & L3 & L4 & L5 & _).
  destruct a.
  - destruct (gatedTick_own Azimuth s) as (O1 & O2 & O3).
    cbn [other] in L1, L2, L3.
    rewrite L1, L2, L3, L4, L5, A4, A5. repeat split; assumption.
  - destruct (gatedTick_own Altitude (gatedTick Azimuth s)) as (O1 & O2 & O3).
    cbn [other] in A1, A2, A3.
    rewrite O1, O2, O3, L4, L5, A1, A2, A3, A4, A5.
    repeat split; assumption.
Qed.

(** An axis that is not moving stays where it is. *)
Lemma loops_at_rest a n : forall s,
  stringComplete s = false ->
  moving a s = false ->
  position a (loops n s) = position a s /\ moving a (loops n s) = false.
Proof.
  induction n as [|n IH]; intros s Hc Hm; [now split|].
  cbn [loops]. unfold seq.
  destruct (loop_idle_axis a s Hc) as (E1 & E2 & _ & _ & E5).
  rewrite Hm in E1, E2. cbn [andb] in E1, E2.
  destruct (IH (loop s) E5 E2) as [I1 I2]. rewrite I1, I2, E1. now split.
Qed.

(** An armed axis whose gate is open walks to its target, one step per
    iteration, and settles in the iteration after the last step. *)
Lemma loops_converge a n : forall s,
  stringComplete s = false ->
  gate a s = true ->
  moving a s = true ->
  Z.abs (position a s - target a s) + 1 <= Z.of_nat n ->
  position a (loops n s) = target a s /\ moving a (loops n s) = false.
Proof.
  induction n as [|n IH]; intros s Hc Hg Hm Hn; [lia|].
  cbn [loops]. unfold seq.
  destruct (loop_idle_axis a s Hc) as (E1 & E2 & E3 & E4 & E5).
  rewrite Hm, Hg in E1, E2. cbn [andb] in E1, E2.
  destruct (Z.eqb_spec (position a s) (target a s)) as [Heq | Hne].
  - cbn [negb] in E2.
    destruct (loops_at_rest a n (loop s) E5 E2) as [I1 I2].
    rewrite I1, I2, E1, Heq, Z.sub_diag. cbn. split; [lia | reflexivity].
  - cbn [negb] in E2.
    assert (Hd : Z.abs (position a (loop s) - target a (loop s)) + 1
                 <= Z.of_nat n).
    { rewrite E1, E3.
      destruct (Z.lt_trichotomy (position a s) (target a s)) as [H | [H | H]];
        [rewrite Z.sgn_pos by lia | contradiction | rewrite Z.sgn_neg by lia];
        lia. }
    destruct (IH (loop s) E5 (eq_trans E4 Hg) E2 Hd) as [I1 I2].
    rewrite I1, I2, E3. now split.
Qed.

(** C1.  Let [t] be a valid target of an axis whose test-mode gate is
    open, and let the axis be armed with [setTarget t] while no line is
    pending.  After [n] iterations of the control loop, for every [n]
    that is at least [|position - t| + 1], the position of the axis is
    [t] and its moving flag is false. *)
Theorem setTarget_then_loops_reach_target (a : Axis) (t : Z) (s : Ctl) (n : nat) :
  0 <= t <= axisMax a ->
  gate a s = true ->
  stringComplete s = false ->
  Z.abs (position a s - t) + 1 <= Z.of_nat n ->
  let s' := loops n (setTarget a t s) in
  position a s' = t /\ moving a s' = false.
Proof.
  intros Ht Hg Hc Hn. cbv zeta.
  assert (Et : target a (setTarget a t s) = t).
  { rewrite setTarget_target. unfold clamp. lia. }
  rewrite <- Et at 2.
  apply loops_converge.
  - destruct a; exact Hc.
  - destruct a; exact Hg.
  - destruct a; reflexivity.
  - rewrite Et. replace (position a (setTarget a t s)) with (position a s)
      by (destruct a; reflexivity).
    exact Hn.
Qed.

(* ================================================================= *)
(** ** Invariants of the control loop *)

Lemma preserves_skip P : preserves P skip.
Proof. intros s H. exact H. Qed.

Lemma preserves_seq P f g :
  preserves P f -> preserves P g -> preserves P (f ;; g).
Proof. intros Hf Hg s H. apply Hg, Hf, H. Qed.

Lemma preserves_ifte P c f g :
  preserves P f -> preserves P g -> preserves P (ifte c f g).
Proof. intros Hf Hg s H. unfold ifte. destruct (c s); auto. Qed.

Lemma preserves_at P (f : Ctl -> Stmt) :
  (forall x, preserves P (f x)) -> preserves P (fun s => f s s).
Proof. intros Hf s H. now apply Hf. Qed.

Create HintDb preserve discriminated.
#[local] Hint Resolve preserves_skip preserves_seq preserves_ifte : preserve.

Lemma loop_unfold s :
  loop s = gatedTick Altitude (gatedTick Azimuth (intake s)).
Proof. reflexivity. Qed.

Section Preservation.

Variable P : Ctl -> Prop.

Hypothesis P_print : forall t, preserves P (Serial_print t).
Hypothesis P_input : forall v, preserves P (set_inputString v).
Hypothesis P_complete : forall v, preserves P (set_stringComplete v).
Hypothesis P_flags : forall az al both, preserves P (set_testFlags az al both).
Hypothesis P_setTarget : forall a v, preserves P (setTarget a v).
Hypothesis P_tick : forall a, preserves P (tick a).

Lemma P_println t : preserves P (Serial_println t).
Proof. apply P_print. Qed.

Lemma P_moveAzimuthTo v : preserves P (moveAzimuthTo v).
Proof. apply (P_setTarget Azimuth). Qed.

Lemma P_moveAltitudeTo v : preserves P (moveAltitudeTo v).
Proof. apply (P_setTarget Altitude). Qed.

#[local] Hint Resolve P_print P_println P_input P_complete P_flags
     P_moveAzimuthTo P_moveAltitudeTo : preserve.

Lemma P_print_of (g : Ctl -> string) :
  preserves P (fun s => Serial_print (g s) s).
Proof. intros s H. now apply P_print. Qed.

Ltac keep :=
  repeat first
    [ simple apply P_moveAzimuthTo | simple apply P_moveAltitudeTo
    | simple apply P_flags
    | simple apply P_println | simple apply P_print
    | simple apply preserves_skip
    | simple apply preserves_seq
    | simple apply preserves_ifte
    | apply P_print_of ].

(** Every command but STOP keeps [P]; STOP keeps it when its two
    assignments do. *)
Lemma dispatch_preserves cmd :
  equals cmd "STOP" = false \/ preserves P stopAll ->
  preserves P (dispatch cmd).
Proof.
  intros Hstop. unfold dispatch.
  repeat match goal with
         | |- preserves _ (if ?c then _ else _) => destruct c eqn:?
         end;
    try solve [keep].
  destruct Hstop as [Hstop | Hstop]; [congruence|].
  apply preserves_seq; [exact Hstop | apply P_println].
Qed.

Lemma intake_preserves s :
  dispatchesStop s = false \/ preserves P stopAll ->
  P s -> P (intake s).
Proof.
  intros Hstop H. unfold intake, ifte, seq, skip, processCommand.
  destruct (stringComplete s) eqn:Ec; [| exact H].
  apply P_complete, P_input, dispatch_preserves; [| exact H].
  unfold dispatchesStop in Hstop. rewrite Ec in Hstop. exact Hstop.
Qed.

Lemma gatedTick_preserves a : preserves P (gatedTick a).
Proof. unfold gatedTick. auto with preserve. Qed.

Lemma loop_preserves s :
  dispatchesStop s = false \/ preserves P stopAll ->
  P s -> P (loop s).
Proof.
  intros Hstop H. rewrite loop_unfold.
  now apply gatedTick_preserves, gatedTick_preserves, intake_preserves.
Qed.

Lemma receive_preserves c : preserves P (receive c).
Proof.
  unfold receive. apply preserves_seq.
  - intros s H. now apply P_input.
  - auto with preserve.
Qed.

Lemma serialEvent_preserves rx : preserves P (serialEvent rx).
Proof.
  induction rx as [|c rx IH]; cbn [serialEvent].
  - apply preserves_skip.
  - apply preserves_seq; [apply receive_preserves | exact IH].
Qed.

End Preservation.

Lemma reachable_run es : forall s, reachable s -> reachable (run es s).
Proof.
  induction es as [|e es IH]; intros s H; [exact H|].
  apply (IH (fire e s)). now constructor.
Qed.

(** *** Positions and targets stay on the axis *)

(** Statements that assign neither a position, a target nor a moving
    flag. *)
Ltac same_axes :=
  repeat intro;
  match goal with
  | a : Axis, H : Bounded _ |- _ => specialize (H a); destruct a; exact H
  | a : Axis, H : Armed _, N : _ <> _ |- _ =>
      specialize (H a); destruct a; exact (H N)
  end.

Lemma Bounded_setTarget a v : preserves Bounded (setTarget a v).
Proof.
  intros s H b. destruct (H b) as [Hp Ht].
  pose proof (setTarget_target a v s) as E.
  pose proof (axisMax_pos a) as Hm.
  unfold in_range.
  destruct a, b; cbn [position target setTarget] in *;
    first [ split; [exact Hp|]; rewrite E; unfold clamp; lia
          | split; assumption ].
Qed.

Lemma Bounded_tick a : preserves Bounded (tick a).
Proof.
  intros s H b.
  destruct (tick_axis a s) as [E1 _].
  pose proof (tick_frame a s) as F. cbv zeta in F.
  destruct F as (F1 & F2 & F3 & _).
  pose proof (H a) as [Hp Ht]. pose proof (H (other a)) as [Hp' Ht'].
  assert (Hs : Z.sgn (target a s - position a s) = 0 /\ target a s = position a s
            \/ Z.sgn (target a s - position a s) = 1 /\ position a s < target a s
            \/ Z.sgn (target a s - position a s) = -1 /\ target a s < position a s).
  { destruct (Z.lt_trichotomy (position a s) (target a s)) as [L | [L | L]].
    - right; left. split; [apply Z.sgn_pos|]; lia.
    - left. rewrite L, Z.sub_diag. now split.
    - right; right. split; [apply Z.sgn_neg|]; lia. }
  unfold in_range.
  destruct a, b; cbn [other] in *;
    first [ rewrite E1, F1; lia | rewrite F2, F3; lia ].
Qed.

Lemma Bounded_startup : Bounded startup.
Proof. intros a. destruct a; vm_compute; intuition discriminate. Qed.

Lemma Bounded_fire e : preserves Bounded (fire e).
Proof.
  destruct e as [bytes |]; cbn [fire]; intros s H.
  - apply serialEvent_preserves; [same_axes | same_axes | exact H].
  - apply loop_preserves; try exact H;
      try solve [same_axes].
    + apply Bounded_setTarget.
    + apply Bounded_tick.
    + right. same_axes.
Qed.

(** *** The phase index stays in the table *)

Lemma Phased_tick a : preserves Phased (tick a).
Proof.
  intros s H. unfold Phased in *.
  destruct (Z.lt_trichotomy (position a s) (target a s)) as [L | [L | L]].
  - rewrite tick_below by assumption.
    apply stepMotor_index_range; [destruct a; exact H | now left].
  - rewrite tick_at by assumption. destruct a; exact H.
  - rewrite tick_above by lia.
    apply stepMotor_index_range; [destruct a; exact H | now right].
Qed.

Lemma Phased_startup : Phased startup.
Proof.
  assert (E : currentStep startup = 0) by reflexivity.
  unfold Phased. rewrite E. lia.
Qed.

(** X14.  In every reachable state the phase index is an index of the
    8-entry table: [stepSequence[currentStep]] is never read out of
    bounds. *)
Lemma reachable_phase_in_table s : reachable s -> 0 <= currentStep s < 8.
Proof.
  intros H. change (Phased s).
  induction H as [| e s _ IH]; [exact Phased_startup|].
  destruct e as [bytes |]; cbn [fire].
  - apply serialEvent_preserves; try exact IH; intros ? ? K; exact K.
  - apply loop_preserves; try exact IH;
      try solve [intros ? ? K; exact K | intros ? ? ? ? K; exact K].
    + intros a v x K. destruct a; exact K.
    + apply Phased_tick.
    + right. intros x K. exact K.
Qed.

(** *** An axis away from its target is moving, unless it was stopped *)

Lemma Armed_setTarget a v : preserves Armed (setTarget a v).
Proof.
  intros s H b Hb. specialize (H b).
  destruct a, b; cbn in Hb |- *; first [reflexivity | exact (H Hb)].
Qed.

Lemma Armed_tick a : preserves Armed (tick a).
Proof.
  intros s H b Hb.
  destruct (tick_axis a s) as [E1 E2].
  pose proof (tick_frame a s) as F. cbv zeta in F.
  destruct F as (F1 & F2 & F3 & F4 & _).
  assert (Own : position a (tick a s) <> target a (tick a s) ->
                moving a (tick a s) = true).
  { rewrite E1, E2, F1. intros Hne.
    destruct (Z.eqb_spec (position a s) (target a s)) as [Heq | Hneq].
    - rewrite Heq, Z.sub_diag in Hne. cbn in Hne. lia.
    - rewrite (H a Hneq). reflexivity. }
  assert (Oth : position (other a) (tick a s) <> target (other a) (tick a s) ->
                moving (other a) (tick a s) = true).
  { rewrite F2, F3, F4. apply H. }
  destruct a, b; cbn [other] in *; auto.
Qed.

Lemma Armed_startup : Armed startup.
Proof. intros a Ha. destruct a; vm_compute in Ha; now destruct Ha. Qed.

(** C6.  In every state reachable from startup, whatever bytes arrive
    and however they are interleaved with iterations of the control
    loop, both axes have their position and their target between 0 and
    the maximum of the axis. *)
Theorem positions_and_targets_in_range (s : Ctl) :
  reachable s ->
  forall a, 0 <= position a s <= axisMax a /\ 0 <= target a s <= axisMax a.
Proof.
  intros H. change (Bounded s).
  induction H as [| e s _ IH].
  - exact Bounded_startup.
  - now apply Bounded_fire.
Qed.

(** C5 (as amended).  In every state reached from startup without a
    STOP being dispatched, an axis whose position differs from its
    target has its moving flag set, whether its gate is open or not. *)
Theorem away_from_target_implies_moving (s : Ctl) :
  reachable_without_stop s ->
  forall a, position a s <> target a s -> moving a s = true.
Proof.
  intros H. change (Armed s).
  induction H as [| bytes s _ IH | s _ IH Hstop].
  - exact Armed_startup.
  - apply serialEvent_preserves; [same_axes | same_axes | exact IH].
  - apply loop_preserves; try exact IH;
      try solve [same_axes].
    + apply Armed_setTarget.
    + apply Armed_tick.
    + now left.
Qed.

(* ================================================================= *)
(** ** Command parser: the line buffer *)

Lemma append_assoc (x y z : string) : ((x ++ y) ++ z = x ++ (y ++ z))%string.
Proof. induction x as [|c x IH]; cbn; [reflexivity | now rewrite IH]. Qed.

Lemma append_nil_r (x : string) : (x ++ EmptyString = x)%string.
Proof. induction x as [|c x IH]; cbn; [reflexivity | now rewrite IH]. Qed.

(** [serialEvent] appends every byte, whatever [stringComplete] is. *)
Lemma serialEvent_inputString rx : forall s,
  inputString (serialEvent rx s) = (inputString s ++ rx)%string.
Proof.
  induction rx as [|c rx IH]; intros s; cbn [serialEvent].
  - unfold skip. now rewrite append_nil_r.
  - unfold seq at 1. rewrite IH.
    assert (E : inputString (receive c s) =
                (inputString s ++ String c EmptyString)%string).
    { unfold receive, seq, ifte, skip. destruct (Ascii.eqb c LF); reflexivity. }
    rewrite E, append_assoc. reflexivity.
Qed.

Lemma receive_stringComplete c s :
  stringComplete (receive c s) = stringComplete s || Ascii.eqb c LF.
Proof.
  unfold receive, seq, ifte, skip.
  destruct (Ascii.eqb c LF); cbn; [now rewrite orb_true_r | now rewrite orb_false_r].
Qed.

(** The ready flag is never cleared by [serialEvent]. *)
Lemma serialEvent_stays_complete rx : forall s,
  stringComplete s = true -> stringComplete (serialEvent rx s) = true.
Proof.
  induction rx as [|c rx IH]; intros s H; cbn [serialEvent]; [exact H|].
  unfold seq at 1. apply IH. rewrite receive_stringComplete, H. reflexivity.
Qed.

(** [serialEvent] touches the buffer and its flag, nothing else. *)
Lemma serialEvent_frame rx : forall s,
  let s' := serialEvent rx s in
  (forall a, position a s' = position a s /\ target a s' = target a s /\
             moving a s' = moving a s /\ gate a s' = gate a s) /\
  currentStep s' = currentStep s /\ pinLog s' = pinLog s /\
  serialOut s' = serialOut s.
Proof.
  induction rx as [|c rx IH]; intros s; cbn [serialEvent].
  - unfold skip. cbv zeta. repeat split.
  - unfold seq. cbv zeta in IH |- *.
    destruct (IH (receive c s)) as (I1 & I2 & I3 & I4).
    assert (R : (forall a, position a (receive c s) = position a s /\
                           target a (receive c s) = target a s /\
                           moving a (receive c s) = moving a s /\
                           gate a (receive c s) = gate a s) /\
                currentStep (receive c s) = currentStep s /\
                pinLog (receive c s) = pinLog s /\
                serialOut (receive c s) = serialOut s).
    { unfold receive, seq, ifte, skip.
      destruct (Ascii.eqb c LF); (split; [intros a; destruct a|]); repeat split. }
    destruct R as (R1 & R2 & R3 & R4).
    rewrite I2, I3, I4. repeat split; try assumption;
      destruct (I1 a) as (? & ? & ? & ?), (R1 a) as (? & ? & ? & ?); congruence.
Qed.

Lemma intake_pending s :
  stringComplete s = true ->
  intake s =
  set_stringComplete false
    (set_inputString EmptyString (processCommand (inputString s) s)).
Proof. intros H. unfold intake, ifte, seq. now rewrite H. Qed.

Lemma loop_resets_buffer s :
  stringComplete s = true ->
  inputString (loop s) = EmptyString /\ stringComplete (loop s) = false.
Proof.
  intros H. rewrite loop_unfold.
  pose proof (gatedTick_frame Altitude (gatedTick Azimuth (intake s))) as FL.
  pose proof (gatedTick_frame Azimuth (intake s)) as FA.
  cbv zeta in FL, FA.
  destruct FL as (_ & _ & _ & _ & L5 & L6), FA as (_ & _ & _ & _ & A5 & A6).
  rewrite L5, L6, A5, A6, intake_pending by assumption. now split.
Qed.

(** C7 (as amended).  While a completed line is pending, the bytes that
    arrive are appended to the same buffer, behind the pending line,
    which is kept as a prefix; the ready flag stays set and nothing else
    changes.  The next iteration of [loop] hands the whole buffer to the
    dispatcher as one line, empties the buffer and clears the flag. *)
Theorem pending_line_grows_until_dispatched (s : Ctl) (rx : string) :
  stringComplete s = true ->
  let s' := serialEvent rx s in
  inputString s' = (inputString s ++ rx)%string /\
  stringComplete s' = true /\
  serialOut s' = serialOut s /\
  intake s' =
    set_stringComplete false
      (set_inputString EmptyString
         (processCommand (inputString s ++ rx) s')) /\
  inputString (loop s') = EmptyString /\
  stringComplete (loop s') = false.
Proof.
  intros H s'.
  assert (Hc : stringComplete s' = true) by now apply serialEvent_stays_complete.
  assert (Hi : inputString s' = (inputString s ++ rx)%string)
    by apply serialEvent_inputString.
  pose proof (serialEvent_frame rx s) as F. cbv zeta in F. fold s' in F.
  destruct (loop_resets_buffer s' Hc) as [L1 L2].
  repeat split; try assumption.
  - apply F.
  - rewrite intake_pending by assumption. now rewrite Hi.
Qed.

(* ================================================================= *)
(** ** Command dispatcher: unknown commands *)

Lemma dispatch_unknown command s :
  recognized command = false ->
  dispatch command s =
  Serial_println "'. Type HELP for available commands."
    (Serial_print command (Serial_print "ERROR: Unknown command '" s)).
Proof.
  unfold recognized. intros H.
  repeat (apply orb_false_elim in H; destruct H as [H ?]).
  unfold dispatch.
  repeat match goal with
         | E : ?c = false |- context [if ?c then _ else _] => rewrite E
         end.
  reflexivity.
Qed.


(* ================================================================= *)
(** ** Command dispatcher: the numeric argument of AZ and AL *)

Lemma prefix_append p s : String.prefix p (p ++ s) = true.
Proof.
  induction p as [|c p IH]; cbn.
  - destruct s; reflexivity.
  - destruct (ascii_dec c c) as [_ | N]; [exact IH | now destruct N].
Qed.

Lemma substring_whole s : String.substring 0 (String.length s) s = s.
Proof. induction s as [|c s IH]; cbn; [reflexivity | now rewrite IH]. Qed.

Lemma NUL_is_plain :
  isspace NUL = false /\ isdigit NUL = false /\
  Ascii.eqb NUL "-" = false /\ Ascii.eqb NUL "+" = false.
Proof. repeat split. Qed.

Lemma skip_space_c_str s : skip_space (c_str s) = c_str (skip_space s).
Proof.
  induction s as [|c s IH]; [reflexivity|].
  cbn [c_str skip_space].
  destruct (Ascii.eqb c NUL) eqn:E.
  - apply Ascii.eqb_eq in E. subst c. reflexivity.
  - cbn [skip_space]. destruct (isspace c); [exact IH|].
    cbn [c_str]. now rewrite E.
Qed.

Lemma digits_c_str s : forall acc, digits acc (c_str s) = digits acc s.
Proof.
  induction s as [|c s IH]; intros acc; [reflexivity|].
  cbn [c_str]. destruct (Ascii.eqb c NUL) eqn:E.
  - apply Ascii.eqb_eq in E. subst c. reflexivity.
  - cbn [digits]. destruct (isdigit c); [apply IH | reflexivity].
Qed.

(** [atol] reads no further than the first NUL. *)
Lemma toInt_c_str s : toInt (c_str s) = toInt s.
Proof.
  unfold toInt, atol. rewrite skip_space_c_str.
  destruct (skip_space s) as [|c r]; [reflexivity|].
  cbn [c_str]. destruct (Ascii.eqb c NUL) eqn:E.
  - apply Ascii.eqb_eq in E. subst c. reflexivity.
  - destruct (Ascii.eqb c "-"); [now rewrite digits_c_str|].
    destruct (Ascii.eqb c "+"); [now rewrite digits_c_str|].
    change (String c (c_str r)) with (String c EmptyString ++ c_str r)%string.
    cbn [digits append]. destruct (isdigit c); [| reflexivity].
    now rewrite digits_c_str.
Qed.

Lemma substring_from_prefix a suffix :
  toInt (substring_from 3 (axisPrefix a ++ suffix)) = toInt suffix.
Proof.
  rewrite <- (toInt_c_str suffix). f_equal.
  destruct a; unfold substring_from; cbn;
    rewrite Nat.sub_0_r; f_equal; apply substring_whole.
Qed.

Lemma digits_without_digit acc r :
  starts_with_digit r = false -> digits acc r = acc.
Proof.
  destruct r as [|c r]; cbn; [reflexivity|]. intros H. now rewrite H.
Qed.

Lemma toInt_no_number s : no_leading_number s = true -> toInt s = 0.
Proof.
  unfold no_leading_number, toInt, atol.
  destruct (skip_space s) as [|c r]; [reflexivity|].
  destruct (Ascii.eqb c "-") eqn:Em; cbn [orb].
  - intros H. apply negb_true_iff in H.
    now rewrite digits_without_digit.
  - destruct (Ascii.eqb c "+") eqn:Ep.
    + intros H. apply negb_true_iff in H.
      now rewrite digits_without_digit.
    + intros H. apply negb_true_iff in H.
      rewrite digits_without_digit; [reflexivity | exact H].
Qed.

(** The AZ and AL branches take every suffix. *)
Lemma dispatch_move a suffix s :
  let n := wrap16 (toInt suffix) in
  dispatch (axisPrefix a ++ suffix) s =
  Serial_println (print_int n) (Serial_print (movingNote a) (setTarget a n s)).
Proof.
  cbv zeta. unfold dispatch.
  rewrite (substring_from_prefix a suffix).
  destruct a; cbn [axisPrefix].
  - unfold startsWith. rewrite (prefix_append "AZ," suffix). reflexivity.
  - unfold startsWith at 1.
    replace (String.prefix "AZ," ("AL," ++ suffix)) with false by reflexivity.
    unfold startsWith. rewrite (prefix_append "AL," suffix). reflexivity.
Qed.

(** C9 (as amended).  A line whose normalized form is [AZ,] or [AL,]
    followed by any suffix at all is accepted: the axis is armed with
    the parsed step value, clamped, the acknowledgement echoes that
    value, and no error is printed.  The parsed value is 0 when the
    suffix does not begin with a number, that is when, after optional
    white space and one optional sign, no digit follows; the empty
    suffix is such a suffix. *)
Theorem move_command_without_number_means_zero
        (a : Axis) (text suffix : string) (s : Ctl) :
  normalize text = (axisPrefix a ++ suffix)%string ->
  let n := parsed_steps (normalize text) in
  let s' := processCommand text s in
  recognized (normalize text) = true /\
  target a s' = clamp n 0 (axisMax a) /\
  moving a s' = true /\
  serialOut s' = (serialOut s ++ movingNote a ++ print_int n ++ CRLF)%string /\
  (no_leading_number suffix = true -> n = 0) /\
  (suffix = EmptyString -> n = 0) /\
  (n = 0 -> target a s' = 0 /\
            serialOut s' = (serialOut s ++ movingNote a ++ "0" ++ CRLF)%string).
Proof.
  intros E n s'.
  assert (En : n = wrap16 (toInt suffix)).
  { subst n. unfold parsed_steps. now rewrite E, substring_from_prefix. }
  assert (Es : s' = Serial_println (print_int n)
                      (Serial_print (movingNote a) (setTarget a n s))).
  { subst s'. unfold processCommand. rewrite E, En. apply dispatch_move. }
  assert (Et : target a s' = clamp n 0 (axisMax a)).
  { rewrite Es, <- (setTarget_target a n s). destruct a; reflexivity. }
  assert (Eo : serialOut s' =
               (serialOut s ++ movingNote a ++ print_int n ++ CRLF)%string).
  { rewrite Es. unfold Serial_println, CRLF. cbn [Serial_print serialOut].
    rewrite !append_assoc. destruct a; reflexivity. }
  split; [| split; [exact Et | split; [| split; [exact Eo | split; [| split]]]]].
  - rewrite E. unfold recognized.
    destruct a; unfold startsWith; cbn [axisPrefix];
      [ rewrite (prefix_append "AZ," suffix)
      | rewrite (prefix_append "AL," suffix), orb_true_r ]; reflexivity.
  - rewrite Es. destruct a; reflexivity.
  - intros H. rewrite En, toInt_no_number by assumption. reflexivity.
  - intros H. rewrite En, H. reflexivity.
  - intros H. rewrite Et, Eo, H. split; [| reflexivity].
    pose proof (axisMax_pos a). unfold clamp. lia.
Qed.

(* ================================================================= *)
(** ** One phase index for two motors *)

Lemma levels_coil_writes p i :
  0 <= i < 8 -> levels (coil_writes p i) = pattern i.
Proof.
  intros Hi.
  assert (Ei : i = 0 \/ i = 1 \/ i = 2 \/ i = 3 \/ i = 4 \/ i = 5 \/ i = 6 \/ i = 7) by lia.
  repeat (destruct Ei as [-> | Ei]); try subst i; reflexivity.
Qed.

Lemma interleave_index steps : forall s,
  0 <= currentStep s < 8 -> Forall directed steps ->
  currentStep (interleave steps s) = (currentStep s + net_steps steps) mod 8.
Proof.
  induction steps as [|[a d] steps IH]; intros s Hi Hd.
  - cbn. unfold skip. rewrite Z.add_0_r, Z.mod_small by lia. reflexivity.
  - inversion Hd as [|x l Hx Hl]; subst. cbn [interleave]. unfold seq.
    rewrite IH by (auto using stepMotor_index_range).
    rewrite stepMotor_index by assumption.
    rewrite Zplus_mod_idemp_l. cbn [net_steps fold_right snd].
    f_equal. fold (net_steps steps). lia.
Qed.

Lemma net_steps_split steps :
  net_steps steps = net_steps_of Azimuth steps + net_steps_of Altitude steps.
Proof.
  induction steps as [|[a d] steps IH]; [reflexivity|].
  unfold net_steps, net_steps_of in *. cbn [fold_right fst snd].
  destruct a; lia.
Qed.

Lemma shifted_index_differs i e :
  0 <= i < 8 -> e = 1 \/ e = -1 -> forall d, (i + e + d) mod 8 <> (i + d) mod 8.
Proof.
  intros Hi He d E.
  pose proof (Z.div_mod (i + e + d) 8 ltac:(lia)) as H1.
  pose proof (Z.div_mod (i + d) 8 ltac:(lia)) as H2.
  rewrite E in H1. destruct He as [-> | ->]; lia.
Qed.

(** C10.  The phase index is one counter for both motors.  A step of
    either motor moves it in the same way, so after any interleaving of
    azimuth and altitude steps the index is the start index plus the
    steps of both axes together (modulo 8), and the pattern the next
    step puts on the pins of one axis is the table entry at that count:
    it depends on the steps the other axis has made.  In particular one
    step of the other axis, by [stepMotor] or by a tick away from its
    target, changes the pattern this axis receives next. *)
Theorem phase_index_is_shared
        (a : Axis) (d : Z) (steps : list (Axis * Z)) (s : Ctl) :
  0 <= currentStep s < 8 ->
  d = 1 \/ d = -1 ->
  Forall directed steps ->
  let b := other a in
  let i := currentStep s in
  currentStep (stepMotor (pins a) d s) = currentStep (stepMotor (pins b) d s) /\
  currentStep (interleave steps s) =
    (i + (net_steps_of a steps + net_steps_of b steps)) mod 8 /\
  levels (writes (stepMotor (pins a) d) (interleave steps s)) =
    pattern ((i + (net_steps_of a steps + net_steps_of b steps) + d) mod 8) /\
  (forall e, e = 1 \/ e = -1 ->
     levels (writes (stepMotor (pins a) d) (stepMotor (pins b) e s)) <>
     levels (writes (stepMotor (pins a) d) s)) /\
  (position b s <> target b s ->
     currentStep (tick b s) <> i /\
     levels (writes (stepMotor (pins a) d) (tick b s)) <>
     levels (writes (stepMotor (pins a) d) s)).
Proof.
  intros Hi Hd Hsteps b i.
  assert (Hnet : net_steps steps = net_steps_of a steps + net_steps_of b steps).
  { rewrite net_steps_split. subst b. destruct a; cbn [other]; lia. }
  assert (Hlev : forall s0, 0 <= currentStep s0 < 8 ->
            levels (writes (stepMotor (pins a) d) s0) =
            pattern ((currentStep s0 + d) mod 8)).
  { intros s0 H0. rewrite stepMotor_writes, stepMotor_index by assumption.
    apply levels_coil_writes, Z.mod_pos_bound. lia. }
  assert (Hdiff : forall s0 e, 0 <= currentStep s0 < 8 -> e = 1 \/ e = -1 ->
            currentStep s0 = (i + e) mod 8 ->
            levels (writes (stepMotor (pins a) d) s0) <>
            levels (writes (stepMotor (pins a) d) s)).
  { intros s0 e H0 He E0. rewrite !Hlev by assumption. intros E.
    apply pattern_injective in E; try (apply Z.mod_pos_bound; lia).
    rewrite E0, Zplus_mod_idemp_l in E.
    now apply (shifted_index_differs i e Hi He d). }
  split; [| split; [| split; [| split]]].
  - now rewrite !stepMotor_currentStep.
  - rewrite <- Hnet. now apply interleave_index.
  - rewrite Hlev.
    + rewrite interleave_index by assumption.
      rewrite Zplus_mod_idemp_l, <- Hnet. reflexivity.
    + rewrite interleave_index by assumption. apply Z.mod_pos_bound. lia.
  - intros e He. apply (Hdiff _ e); auto using stepMotor_index_range.
    now apply stepMotor_index.
  - intros Hne.
    assert (Hmove : exists e, (e = 1 \/ e = -1) /\
              currentStep (tick b s) = (i + e) mod 8).
    { destruct (Z.lt_trichotomy (position b s) (target b s)) as [L | [L | L]];
        [exists 1 | contradiction | exists (-1)];
        (split; [auto|]).
      - apply (tick_moves b 1 s Hi); [now left | now apply tick_below].
      - apply (tick_moves b (-1) s Hi); [now right | apply tick_above; lia]. }
    destruct Hmove as (e & He & Ee).
    assert (Hr : 0 <= currentStep (tick b s) < 8).
    { rewrite Ee. apply Z.mod_pos_bound. lia. }
    split.
    + rewrite Ee. intros E.
      apply (shifted_index_differs i e Hi He 0).
      rewrite !Z.add_0_r, E. symmetry. apply Z.mod_small. exact Hi.
    + now apply (Hdiff _ e).
Qed.

Lemma phase_index_is_shared_witness :
  levels (writes (stepMotor azimuthPins 1)
            (interleave [(Altitude, 1); (Altitude, 1); (Azimuth, -1)] startup))
  = [0; 1; 0; 0] /\
  levels (writes (stepMotor azimuthPins 1) (stepMotor altitudePins 1 startup))
  <> levels (writes (stepMotor azimuthPins 1) startup).
Proof.
  pose proof (phase_index_is_shared Azimuth 1
                [(Altitude, 1); (Altitude, 1); (Azimuth, -1)] startup
                ltac:(cbn; lia) ltac:(left; reflexivity)
                ltac:(repeat (apply Forall_cons;
                                [cbv [directed snd]; auto |]);
                      apply Forall_nil)) as H.
  cbv zeta in H. destruct H as (_ & _ & H3 & H4 & _).
  split; [exact H3 | exact (H4 1 (or_introl eq_refl))].
Defined.

(* ================================================================= *)
(** ** What commands and ticks leave alone *)

Lemma same_mechanics_refl s : same_mechanics s s.
Proof. unfold same_mechanics. repeat split. Qed.

(** X1.  No command moves a motor, steps the sequencer, writes a pin or
    touches the line buffer: [processCommand] only assigns targets,
    moving flags and test flags, and prints. *)
Theorem command_leaves_mechanics (text : string) (s : Ctl) :
  same_mechanics s (processCommand text s).
Proof.
  unfold processCommand.
  apply (dispatch_preserves (same_mechanics s)).
  - intros t x H. exact H.
  - intros az al both x H. exact H.
  - intros a v x H. destruct a; exact H.
  - right. intros x H. exact H.
  - apply same_mechanics_refl.
Qed.

(** The pin writes of a tick: none, or one pattern on the pins of the
    ticked axis. *)
Lemma tick_pinLog a s :
  exists w, pinLog (tick a s) = (pinLog s ++ w)%list /\
            (w = [] \/ exists i, w = coil_writes (pins a) i).
Proof.
  destruct (Z.lt_trichotomy (position a s) (target a s)) as [L | [L | L]].
  - rewrite tick_below by assumption. rewrite stepMotor_pinLog.
    eexists. split; [| right; eexists; reflexivity].
    destruct a; reflexivity.
  - exists []. split; [| now left].
    rewrite tick_at, app_nil_r by assumption. destruct a; reflexivity.
  - rewrite tick_above by lia. rewrite stepMotor_pinLog.
    eexists. split; [| right; eexists; reflexivity].
    destruct a; reflexivity.
Qed.

Lemma writes_app f s w : pinLog (f s) = (pinLog s ++ w)%list -> writes f s = w.
Proof.
  intros E. unfold writes. rewrite E, skipn_app, skipn_all, Nat.sub_diag.
  reflexivity.
Qed.

Lemma coil_writes_pins p i :
  List.length p = 4%nat -> Forall (fun w => In (fst w) p) (coil_writes p i).
Proof.
  intros Hp. destruct p as [|p0 [|p1 [|p2 [|p3 [|]]]]]; try discriminate Hp.
  unfold coil_writes. cbn [List.seq map nth fst].
  repeat (apply Forall_cons; [cbn; auto 6 |]). apply Forall_nil.
Qed.

(** X12.  A tick of one axis writes to the four pins of that axis and to no
    other pin, and it writes nothing or one complete pattern. *)
Theorem tick_writes_own_pins (a : Axis) (s : Ctl) :
  Forall (fun w => In (fst w) (pins a) /\ ~ In (fst w) (pins (other a)))
         (writes (tick a) s) /\
  (List.length (writes (tick a) s) = 0%nat \/
   List.length (writes (tick a) s) = 4%nat).
Proof.
  destruct (tick_pinLog a s) as (w & E & Hw).
  rewrite (writes_app _ _ _ E).
  destruct Hw as [-> | [i ->]]; [split; [constructor | now left]|].
  split; [| now right].
  pose proof (coil_writes_pins (pins a) i ltac:(destruct a; reflexivity)) as H.
  apply Forall_forall. intros x Hx.
  rewrite Forall_forall in H. specialize (H x Hx). split; [exact H|].
  destruct a; cbn in H |- *; intros K;
    repeat (destruct H as [H | H]; [rewrite <- H in K; cbv in K;
              repeat (destruct K as [K | K]; [discriminate K|]); exact K |]);
    exact H.
Qed.

(* ================================================================= *)
(** ** One iteration of [loop], whatever is pending *)

Lemma intake_idempotent s :
  intake (intake s) = intake s /\ stringComplete (intake s) = false.
Proof.
  unfold intake, ifte, seq, skip.
  destruct (stringComplete s) eqn:E; cbn; [now split|].
  rewrite E. now split.
Qed.

(** The iteration that dispatches a line is the dispatch followed by an
    iteration without pending line. *)
Lemma loop_after_intake s :
  loop s = loop (intake s) /\ stringComplete (intake s) = false.
Proof.
  destruct (intake_idempotent s) as [E1 E2].
  split; [| exact E2]. now rewrite !loop_unfold, E1.
Qed.

Lemma loops_after_intake n s : loops (S n) s = loops (S n) (intake s).
Proof.
  cbn [loops]. unfold seq. now rewrite (proj1 (loop_after_intake s)).
Qed.

Lemma intake_mechanics s :
  azimuthStep (intake s) = azimuthStep s /\
  altitudeStep (intake s) = altitudeStep s /\
  currentStep (intake s) = currentStep s /\
  pinLog (intake s) = pinLog s.
Proof.
  apply (intake_preserves
           (fun x => azimuthStep x = azimuthStep s /\
                     altitudeStep x = altitudeStep s /\
                     currentStep x = currentStep s /\
                     pinLog x = pinLog s)).
  - intros t x H. exact H.
  - intros v x H. exact H.
  - intros v x H. exact H.
  - intros az al both x H. exact H.
  - intros a v x H. destruct a; exact H.
  - right. intros x H. exact H.
  - repeat split.
Qed.

Lemma gatedTick_pinLog a s :
  exists w, pinLog (gatedTick a s) = (pinLog s ++ w)%list /\
            (List.length w <= 4)%nat.
Proof.
  unfold gatedTick, ifte, skip. destruct (moving a s && gate a s).
  - destruct (tick_pinLog a s) as (w & E & [-> | [i ->]]);
      eexists; (split; [exact E | cbn; lia]).
  - exists []. rewrite app_nil_r. split; [reflexivity | cbn; lia].
Qed.

(** X10.  Speed limit.  In one iteration of [loop], whatever the state and
    whatever line is pending, each axis moves by at most one step and at
    most two patterns are written to the pins. *)
Theorem loop_moves_at_most_one_step (s : Ctl) :
  (forall a, Z.abs (position a (loop s) - position a s) <= 1) /\
  0 <= physical_steps loop s <= 2.
Proof.
  destruct (intake_mechanics s) as (M1 & M2 & _ & M4).
  split.
  - intros a. rewrite loop_unfold.
    pose proof (gatedTick_frame Altitude (gatedTick Azimuth (intake s))) as FL.
    pose proof (gatedTick_frame Azimuth (intake s)) as FA.
    cbv zeta in FL, FA. cbn [other] in FL, FA.
    destruct FL as (L1 & _), FA as (A1 & _).
    assert (Hsgn : forall z, Z.abs (Z.sgn z) <= 1).
    { intros z. destruct z; cbn; lia. }
    destruct a; cbn [position].
    + destruct (gatedTick_own Azimuth (intake s)) as (O1 & _).
      cbn [position] in L1, O1. rewrite L1, O1, M1.
      destruct (moving Azimuth (intake s) && gate Azimuth (intake s)).
      * specialize (Hsgn (target Azimuth (intake s) - azimuthStep s)). lia.
      * lia.
    + destruct (gatedTick_own Altitude (gatedTick Azimuth (intake s)))
        as (O1 & _).
      cbn [position] in A1, O1. rewrite O1, A1, M2.
      destruct (moving Altitude (gatedTick Azimuth (intake s)) &&
                gate Altitude (gatedTick Azimuth (intake s))).
      * specialize (Hsgn (target Altitude (gatedTick Azimuth (intake s))
                          - altitudeStep s)).
        lia.
      * lia.
  - destruct (gatedTick_pinLog Azimuth (intake s)) as (w1 & E1 & H1).
    destruct (gatedTick_pinLog Altitude (gatedTick Azimuth (intake s)))
      as (w2 & E2 & H2).
    assert (E : pinLog (loop s) = (pinLog s ++ (w1 ++ w2))%list).
    { rewrite loop_unfold, E2, E1, M4, app_assoc. reflexivity. }
    unfold physical_steps. rewrite (writes_app _ _ _ E), length_app.
    split.
    + apply Z.div_pos; lia.
    + apply Z.div_le_upper_bound; lia.
Qed.

(** X9.  Nothing pending, nothing moving: [loop] changes nothing at all, it
    prints nothing and writes no pin, however often it runs. *)
Theorem idle_loop_is_silent (s : Ctl) (n : nat) :
  stringComplete s = false ->
  azimuthMoving s = false ->
  altitudeMoving s = false ->
  loops n s = s.
Proof.
  intros Hc Ha Hl.
  assert (E : loop s = s).
  { rewrite loop_idle by assumption.
    unfold gatedTick, ifte, skip. cbn [moving]. rewrite Ha. cbn [andb].
    rewrite Hl. reflexivity. }
  induction n as [|n IH]; [reflexivity|].
  cbn [loops]. unfold seq. now rewrite E.
Qed.

Lemma loops_target a n : forall s,
  stringComplete s = false -> target a (loops n s) = target a s.
Proof.
  induction n as [|n IH]; intros s Hc; [reflexivity|].
  cbn [loops]. unfold seq.
  destruct (loop_idle_axis a s Hc) as (_ & _ & E3 & _ & E5).
  now rewrite IH, E3.
Qed.

(** X8.  An axis whose test-mode gate is closed does not move and keeps its
    moving flag, for as long as no line is dispatched. *)
Theorem closed_gate_freezes_axis (a : Axis) (s : Ctl) (n : nat) :
  stringComplete s = false ->
  gate a s = false ->
  position a (loops n s) = position a s /\
  moving a (loops n s) = moving a s /\
  target a (loops n s) = target a s.
Proof.
  revert s. induction n as [|n IH]; intros s Hc Hg; [now repeat split|].
  cbn [loops]. unfold seq.
  destruct (loop_idle_axis a s Hc) as (E1 & E2 & E3 & E4 & E5).
  rewrite Hg, andb_false_r in E1. rewrite Hg in E2. cbn in E2.
  rewrite andb_true_r in E2.
  destruct (IH (loop s) E5 (eq_trans E4 Hg)) as (I1 & I2 & I3).
  rewrite I1, I2, I3, E1, E2, E3. now repeat split.
Qed.

(* ================================================================= *)
(** ** STOP and HOME *)

Lemma intake_line s :
  stringComplete s = true ->
  intake s = set_stringComplete false
               (set_inputString EmptyString
                  (dispatch (normalize (inputString s)) s)).
Proof. intros H. now rewrite intake_pending. Qed.

(** X6.  STOP.  The iteration that dispatches STOP clears both moving flags
    and makes no step; from then on, as long as no further line
    arrives, both axes keep their position, their target and a cleared
    flag. *)
Theorem stop_freezes_both_axes (s : Ctl) (n : nat) :
  stringComplete s = true ->
  normalize (inputString s) = "STOP" ->
  forall a,
    position a (loops (S n) s) = position a s /\
    target a (loops (S n) s) = target a s /\
    moving a (loops (S n) s) = false.
Proof.
  intros Hc Hs a.
  rewrite loops_after_intake.
  destruct (intake_idempotent s) as [_ Hi].
  assert (Hm : moving a (intake s) = false).
  { rewrite intake_line, Hs by assumption. destruct a; reflexivity. }
  assert (Hp : position a (intake s) = position a s).
  { rewrite intake_line, Hs by assumption. destruct a; reflexivity. }
  assert (Ht : target a (intake s) = target a s).
  { rewrite intake_line, Hs by assumption. destruct a; reflexivity. }
  destruct (loops_at_rest a (S n) (intake s) Hi Hm) as [R1 R2].
  rewrite R1, R2, loops_target, Hp, Ht by assumption. now repeat split.
Qed.

(** X7.  HOME.  With both motors enabled, the iteration that dispatches HOME
    and the iterations that follow bring both axes to step 0: after [n]
    iterations, [n] larger than the distance of either axis from 0,
    each axis is at 0 with target 0 and a cleared flag. *)
Theorem home_returns_both_axes (s : Ctl) (n : nat) :
  stringComplete s = true ->
  normalize (inputString s) = "HOME" ->
  testBothMotors s = true ->
  (forall a, Z.abs (position a s) + 1 <= Z.of_nat n) ->
  forall a,
    position a (loops n s) = 0 /\
    target a (loops n s) = 0 /\
    moving a (loops n s) = false.
Proof.
  intros Hc Hs Hb Hn a.
  destruct n as [|n]; [specialize (Hn a); lia|].
  rewrite loops_after_intake.
  destruct (intake_idempotent s) as [_ Hi].
  assert (Hm : moving a (intake s) = true).
  { rewrite intake_line, Hs by assumption. destruct a; reflexivity. }
  assert (Hp : position a (intake s) = position a s).
  { rewrite intake_line, Hs by assumption. destruct a; reflexivity. }
  assert (Ht : target a (intake s) = 0).
  { rewrite intake_line, Hs by assumption. destruct a; reflexivity. }
  assert (Hg : gate a (intake s) = true).
  { rewrite intake_line, Hs by assumption.
    destruct a; cbn; unfold azimuthGate, altitudeGate; cbn;
      rewrite Hb; apply orb_true_r. }
  assert (Hd : Z.abs (position a (intake s) - target a (intake s)) + 1
               <= Z.of_nat (S n)).
  { rewrite Hp, Ht, Z.sub_0_r. apply Hn. }
  destruct (loops_converge a (S n) (intake s) Hi Hg Hm Hd) as [R1 R2].
  rewrite R1, R2, loops_target, Ht by assumption. now repeat split.
Qed.

(* ================================================================= *)
(** ** The test-mode selector *)

Lemma dispatch_flags cmd s :
  let s' := dispatch cmd s in
  (testAzimuthOnly s' = testAzimuthOnly s /\
   testAltitudeOnly s' = testAltitudeOnly s /\
   testBothMotors s' = testBothMotors s) \/ oneMode s'.
Proof.
  cbv zeta. unfold dispatch.
  repeat match goal with
         | |- context [if ?c then _ else _] =>
             lazymatch c with
             | startsWith _ _ => destruct c
             | equals _ _ => destruct c
             end
         end;
    unfold seq, ifte, skip, oneMode, Serial_println;
    cbn [Serial_print set_testFlags testAzimuthOnly testAltitudeOnly
         testBothMotors];
    try (left; repeat split; fail);
    try (destruct (testAzimuthOnly s) eqn:E1, (testAltitudeOnly s) eqn:E2,
                  (testBothMotors s) eqn:E3;
         cbn [Serial_print testAzimuthOnly testAltitudeOnly testBothMotors];
         rewrite ?E1, ?E2, ?E3; left; repeat split; fail);
    right; intuition auto.
Qed.

Lemma oneMode_flags s s' :
  testAzimuthOnly s' = testAzimuthOnly s ->
  testAltitudeOnly s' = testAltitudeOnly s ->
  testBothMotors s' = testBothMotors s ->
  oneMode s -> oneMode s'.
Proof. unfold oneMode. intros -> -> ->. tauto. Qed.

Lemma oneMode_tick a : preserves oneMode (tick a).
Proof.
  intros s H. pose proof (tick_frame a s) as F. cbv zeta in F.
  destruct F as (_ & _ & _ & _ & F1 & F2 & F3 & _).
  now apply (oneMode_flags s).
Qed.

Lemma oneMode_intake : preserves oneMode intake.
Proof.
  intros s H. unfold intake, ifte, skip, seq, processCommand.
  destruct (stringComplete s); [| exact H].
  destruct (dispatch_flags (normalize (inputString s)) s) as [(E1 & E2 & E3) | K].
  - apply (oneMode_flags s); assumption.
  - exact K.
Qed.

(** X5.  In every reachable state exactly one of the three test-mode flags
    is set. *)
Theorem selector_is_exclusive (s : Ctl) : reachable s -> oneMode s.
Proof.
  intros H. induction H as [| e s _ IH].
  - right; right. repeat split.
  - destruct e as [bytes |]; cbn [fire].
    + apply serialEvent_preserves; try exact IH; intros ? ? K; exact K.
    + rewrite loop_unfold.
      apply gatedTick_preserves, gatedTick_preserves, oneMode_intake;
        try apply oneMode_tick.
      exact IH.
Qed.

(** X4.  TEST_AZ, TEST_AL and TEST_BOTH set the selector whatever it was
    before (the last one wins): the gate of the named axis, or of both,
    is open and the other gate is closed.  Targets and moving flags are
    kept. *)
Theorem test_command_sets_gates (text : string) (s : Ctl) :
  let s' := processCommand text s in
  (normalize text = "TEST_AZ" ->
     gate Azimuth s' = true /\ gate Altitude s' = false) /\
  (normalize text = "TEST_AL" ->
     gate Azimuth s' = false /\ gate Altitude s' = true) /\
  (normalize text = "TEST_BOTH" ->
     gate Azimuth s' = true /\ gate Altitude s' = true) /\
  (normalize text = "TEST_AZ" \/ normalize text = "TEST_AL" \/
   normalize text = "TEST_BOTH" ->
     oneMode s' /\
     forall a, target a s' = target a s /\ moving a s' = moving a s).
Proof.
  cbv zeta. unfold processCommand.
  split; [| split; [| split; [| intros H; split; [| intros a; split]]]].
  - intros ->. now split.
  - intros ->. now split.
  - intros ->. now split.
  - destruct H as [-> | [-> | ->]]; unfold oneMode; cbn; intuition auto.
  - destruct H as [-> | [-> | ->]]; destruct a; reflexivity.
  - destruct H as [-> | [-> | ->]]; destruct a; reflexivity.
Qed.

(* ================================================================= *)
(** ** Queries *)

Lemma same_but_output_print t s : same_but_output s (Serial_print t s).
Proof. unfold same_but_output. repeat split. Qed.

(** X3.  STATUS, with exactly one test flag set (as in every reachable
    state): one complete line is printed, with both positions, both
    moving flags and the selector, and nothing else changes. *)
Theorem status_reports_one_line (text : string) (s : Ctl) :
  normalize text = "STATUS" ->
  oneMode s ->
  let s' := processCommand text s in
  serialOut s' = (serialOut s ++ statusLine s ++ CRLF)%string /\
  same_but_output s s'.
Proof.
  intros Hn Hm. cbv zeta. unfold processCommand. rewrite Hn.
  change (dispatch "STATUS") with
    (Serial_print "STATUS: AZ=" ;;
     (fun s => Serial_print (print_int (azimuthStep s)) s) ;;
     Serial_print ", AL=" ;;
     (fun s => Serial_print (print_int (altitudeStep s)) s) ;;
     Serial_print ", AZ_MOVING=" ;;
     (fun s => Serial_print (bit (azimuthMoving s)) s) ;;
     Serial_print ", AL_MOVING=" ;;
     (fun s => Serial_print (bit (altitudeMoving s)) s) ;;
     Serial_print ", TEST_MODE=" ;;
     (IF testAzimuthOnly THEN Serial_println "AZ_ONLY"
      ELSE IF testAltitudeOnly THEN Serial_println "AL_ONLY"
      ELSE WHEN testBothMotors THEN Serial_println "BOTH")).
  unfold seq, ifte, skip, statusLine, modeName, Serial_println, same_but_output.
  cbn [Serial_print serialOut azimuthStep altitudeStep azimuthTarget
       altitudeTarget azimuthMoving altitudeMoving testAzimuthOnly
       testAltitudeOnly testBothMotors inputString stringComplete
       currentStep pinLog].
  destruct Hm as [(E1 & E2 & E3) | [(E1 & E2 & E3) | (E1 & E2 & E3)]];
    rewrite E1, ?E2, ?E3;
    cbn [Serial_print serialOut azimuthStep altitudeStep azimuthTarget
         altitudeTarget azimuthMoving altitudeMoving testAzimuthOnly
         testAltitudeOnly testBothMotors inputString stringComplete
         currentStep pinLog];
    (split; [rewrite !append_assoc; reflexivity
            | repeat split; (reflexivity || assumption)]).
Qed.

(** X2.  STATUS, HELP and TEST_MODE only print: no global of the sketch is
    assigned. *)
Theorem queries_are_read_only (text : string) (s : Ctl) :
  normalize text = "STATUS" \/ normalize text = "HELP" \/
  normalize text = "TEST_MODE" ->
  same_but_output s (processCommand text s).
Proof.
  unfold processCommand.
  intros [-> | [-> | ->]]; unfold same_but_output.
  - change (dispatch "STATUS") with
      (Serial_print "STATUS: AZ=" ;;
       (fun s => Serial_print (print_int (azimuthStep s)) s) ;;
       Serial_print ", AL=" ;;
       (fun s => Serial_print (print_int (altitudeStep s)) s) ;;
       Serial_print ", AZ_MOVING=" ;;
       (fun s => Serial_print (bit (azimuthMoving s)) s) ;;
       Serial_print ", AL_MOVING=" ;;
       (fun s => Serial_print (bit (altitudeMoving s)) s) ;;
       Serial_print ", TEST_MODE=" ;;
       (IF testAzimuthOnly THEN Serial_println "AZ_ONLY"
        ELSE IF testAltitudeOnly THEN Serial_println "AL_ONLY"
        ELSE WHEN testBothMotors THEN Serial_println "BOTH")).
    unfold seq, ifte, skip, Serial_println.
    cbn [Serial_print testAzimuthOnly testAltitudeOnly testBothMotors].
    destruct (testAzimuthOnly s) eqn:E1, (testAltitudeOnly s) eqn:E2,
             (testBothMotors s) eqn:E3;
      cbn; rewrite ?E1, ?E2, ?E3; repeat split.
  - repeat split.
  - change (dispatch "TEST_MODE") with
      (Serial_print "TEST_MODE: " ;;
       (IF testAzimuthOnly THEN Serial_println "Azimuth motor only"
        ELSE IF testAltitudeOnly THEN Serial_println "Altitude motor only"
        ELSE WHEN testBothMotors THEN Serial_println "Both motors")).
    unfold seq, ifte, skip, Serial_println.
    cbn [Serial_print testAzimuthOnly testAltitudeOnly testBothMotors].
    destruct (testAzimuthOnly s) eqn:E1, (testAltitudeOnly s) eqn:E2,
             (testBothMotors s) eqn:E3;
      cbn; rewrite ?E1, ?E2, ?E3; repeat split.
Qed.

(* ================================================================= *)
(** ** Lines that arrive in pieces *)

Lemma serialEvent_stringComplete rx : forall s,
  stringComplete (serialEvent rx s) = stringComplete s || has_LF rx.
Proof.
  induction rx as [|c rx IH]; intros s; cbn [serialEvent has_LF].
  - unfold skip. now rewrite orb_false_r.
  - unfold seq. rewrite IH, receive_stringComplete. now rewrite orb_assoc.
Qed.

Lemma loops_keep_buffer n : forall s,
  stringComplete s = false ->
  inputString (loops n s) = inputString s /\ stringComplete (loops n s) = false.
Proof.
  induction n as [|n IH]; intros s Hc; [now split|].
  cbn [loops]. unfold seq.
  assert (E : inputString (loop s) = inputString s /\
              stringComplete (loop s) = false).
  { rewrite loop_idle by assumption.
    pose proof (gatedTick_frame Altitude (gatedTick Azimuth s)) as FL.
    pose proof (gatedTick_frame Azimuth s) as FA. cbv zeta in FL, FA.
    destruct FL as (_ & _ & _ & _ & L5 & L6), FA as (_ & _ & _ & _ & A5 & A6).
    rewrite L5, L6, A5, A6. now split. }
  destruct E as [E1 E2]. destruct (IH (loop s) E2) as [I1 I2].
  rewrite I1, I2, E1. now split.
Qed.

(** X15.  A line may arrive in pieces.  Bytes without a line feed stay in the
    buffer, unread, through any number of iterations of [loop]; later
    bytes are appended behind them; the ready flag is set exactly when a
    line feed has arrived, and the dispatcher is then handed everything
    received since the last dispatch. *)
Theorem partial_line_waits_for_line_feed (s : Ctl) (x y : string) (n : nat) :
  stringComplete s = false ->
  has_LF x = false ->
  let s1 := loops n (serialEvent x s) in
  let s2 := serialEvent y s1 in
  inputString s1 = (inputString s ++ x)%string /\
  stringComplete s1 = false /\
  inputString s2 = (inputString s ++ x ++ y)%string /\
  stringComplete s2 = has_LF y /\
  (has_LF y = true ->
   intake s2 =
   set_stringComplete false
     (set_inputString EmptyString
        (processCommand (inputString s ++ x ++ y) s2))).
Proof.
  intros Hc Hx s1 s2.
  assert (H0 : stringComplete (serialEvent x s) = false).
  { now rewrite serialEvent_stringComplete, Hc, Hx. }
  destruct (loops_keep_buffer n (serialEvent x s) H0) as [K1 K2].
  fold s1 in K1, K2.
  assert (E1 : inputString s1 = (inputString s ++ x)%string).
  { now rewrite K1, serialEvent_inputString. }
  assert (E2 : inputString s2 = (inputString s ++ x ++ y)%string).
  { unfold s2. now rewrite serialEvent_inputString, E1, append_assoc. }
  assert (E3 : stringComplete s2 = has_LF y).
  { unfold s2. now rewrite serialEvent_stringComplete, K2. }
  split; [exact E1 | split; [exact K2 | split; [exact E2 | split; [exact E3|]]]].
  intros Hy. rewrite intake_pending by (rewrite E3; exact Hy). now rewrite E2.
Qed.

(* ================================================================= *)
(** ** Normalization of a line *)

Lemma isspace_toupper c : isspace (toupper c) = isspace c.
Proof.
  destruct c as [[] [] [] [] [] [] [] []]; reflexivity.
Qed.

Lemma toupper_NUL c : Ascii.eqb (toupper c) NUL = Ascii.eqb c NUL.
Proof.
  destruct c as [[] [] [] [] [] [] [] []]; reflexivity.
Qed.

Lemma toUpperCase_cons c s :
  Ascii.eqb c NUL = false ->
  toUpperCase (String c s) = String (toupper c) (toUpperCase s).
Proof. intros E. cbn [toUpperCase]. now rewrite E. Qed.

Lemma toUpperCase_NUL s : toUpperCase (String NUL s) = String NUL s.
Proof. reflexivity. Qed.

Lemma skip_space_toUpperCase s :
  skip_space (toUpperCase s) = toUpperCase (skip_space s).
Proof.
  induction s as [|c s IH]; [reflexivity|].
  destruct (Ascii.eqb c NUL) eqn:E.
  - apply Ascii.eqb_eq in E. subst c. reflexivity.
  - rewrite toUpperCase_cons by assumption. cbn [skip_space].
    rewrite isspace_toupper. destruct (isspace c); [exact IH|].
    now rewrite toUpperCase_cons.
Qed.

Lemma drop_trailing_space_NUL s :
  drop_trailing_space (String NUL s) = String NUL (drop_trailing_space s).
Proof.
  cbn [drop_trailing_space]. now destruct (drop_trailing_space s).
Qed.

Lemma drop_trailing_space_toUpperCase s :
  drop_trailing_space (toUpperCase s) = toUpperCase (drop_trailing_space s).
Proof.
  induction s as [|c s IH]; [reflexivity|].
  destruct (Ascii.eqb c NUL) eqn:E.
  - apply Ascii.eqb_eq in E. subst c.
    now rewrite toUpperCase_NUL, drop_trailing_space_NUL, toUpperCase_NUL.
  - rewrite toUpperCase_cons by assumption. cbn [drop_trailing_space].
    rewrite IH, isspace_toupper.
    destruct (drop_trailing_space s) as [|d w] eqn:Ed.
    + cbn [toUpperCase]. destruct (isspace c); [reflexivity|].
      now rewrite toUpperCase_cons.
    + rewrite (toUpperCase_cons c (String d w)) by assumption.
      destruct (toUpperCase (String d w)) eqn:Eu; [| reflexivity].
      cbn [toUpperCase] in Eu. destruct (Ascii.eqb d NUL); discriminate Eu.
Qed.

(** A text without NUL is copied as it is. *)
Lemma copy_from_no_NUL s : forall i, no_NUL s = true -> copy_from i s = s.
Proof.
  induction s as [|c s IH]; intros i H; [reflexivity|].
  cbn [no_NUL] in H. apply andb_prop in H. destruct H as [Hc Hs].
  apply negb_true_iff in Hc. cbn [copy_from]. rewrite Hc.
  now rewrite IH.
Qed.

Lemma copy_no_NUL s : no_NUL s = true -> copy s = s.
Proof. apply copy_from_no_NUL. Qed.

Lemma no_NUL_app x y : no_NUL (x ++ y) = no_NUL x && no_NUL y.
Proof.
  induction x as [|c x IH]; [reflexivity|].
  cbn [append no_NUL]. now rewrite IH, andb_assoc.
Qed.

Lemma all_space_no_NUL s : all_space s = true -> no_NUL s = true.
Proof.
  induction s as [|c s IH]; [reflexivity|].
  cbn [all_space no_NUL]. intros H. apply andb_prop in H.
  destruct H as [Hc Hs]. rewrite (IH Hs), andb_true_r.
  destruct (Ascii.eqb c NUL) eqn:E; [| reflexivity].
  apply Ascii.eqb_eq in E. subst c. discriminate Hc.
Qed.

Lemma no_NUL_toUpperCase s : no_NUL (toUpperCase s) = no_NUL s.
Proof.
  induction s as [|c s IH]; [reflexivity|].
  destruct (Ascii.eqb c NUL) eqn:E.
  - apply Ascii.eqb_eq in E. subst c. reflexivity.
  - rewrite toUpperCase_cons by assumption. cbn [no_NUL].
    now rewrite toupper_NUL, E, IH.
Qed.

Lemma trim_toUpperCase s : trim (toUpperCase s) = toUpperCase (trim s).
Proof.
  unfold trim. now rewrite skip_space_toUpperCase, drop_trailing_space_toUpperCase.
Qed.

Lemma skip_space_all_space r : all_space r = true -> skip_space r = EmptyString.
Proof.
  induction r as [|c r IH]; cbn; [reflexivity|].
  intros H. apply andb_prop in H. destruct H as [Hc Hr]. rewrite Hc. now apply IH.
Qed.

Lemma drop_trailing_all_space r :
  all_space r = true -> drop_trailing_space r = EmptyString.
Proof.
  induction r as [|c r IH]; cbn; [reflexivity|].
  intros H. apply andb_prop in H. destruct H as [Hc Hr].
  now rewrite (IH Hr), Hc.
Qed.

Lemma drop_trailing_space_app u r :
  all_space r = true ->
  drop_trailing_space (u ++ r) = drop_trailing_space u.
Proof.
  intros Hr. induction u as [|c u IH]; cbn.
  - now apply drop_trailing_all_space.
  - now rewrite IH.
Qed.

Lemma skip_space_app l u :
  all_space l = true -> skip_space (l ++ u) = skip_space u.
Proof.
  induction l as [|c l IH]; cbn; [reflexivity|].
  intros H. apply andb_prop in H. destruct H as [Hc Hl]. rewrite Hc. now apply IH.
Qed.

Lemma trim_app_right t r :
  all_space r = true -> trim (t ++ r) = trim t.
Proof.
  intros Hr. unfold trim. induction t as [|c t IH]; cbn.
  - now rewrite skip_space_all_space.
  - destruct (isspace c); [exact IH|].
    apply (drop_trailing_space_app (String c t) r Hr).
Qed.

Lemma trim_padding l t r :
  all_space l = true -> all_space r = true -> trim (l ++ t ++ r) = trim t.
Proof.
  intros Hl Hr. unfold trim at 1. rewrite skip_space_app by assumption.
  now apply trim_app_right.
Qed.

Lemma trim_idempotent_on_blank t : all_space t = true -> trim t = EmptyString.
Proof.
  intros H. unfold trim. now rewrite skip_space_all_space.
Qed.

(** X16.  Commands are read without regard to letter case and to white space
    around them: two lines without NUL byte that differ in the case of
    their letters and in leading and trailing white space (a carriage
    return before the line feed, for instance) have the same effect in
    every state. *)
Theorem commands_ignore_case_and_padding (l r t1 t2 : string) (s : Ctl) :
  all_space l = true ->
  all_space r = true ->
  no_NUL t1 = true ->
  toUpperCase t1 = toUpperCase t2 ->
  normalize (l ++ t1 ++ r) = normalize t2 /\
  processCommand (l ++ t1 ++ r) s = processCommand t2 s.
Proof.
  intros Hl Hr H1 Hu.
  assert (H2 : no_NUL t2 = true).
  { now rewrite <- no_NUL_toUpperCase, <- Hu, no_NUL_toUpperCase. }
  assert (Hp : no_NUL (l ++ t1 ++ r) = true).
  { now rewrite !no_NUL_app, H1, !all_space_no_NUL. }
  assert (E : normalize (l ++ t1 ++ r) = normalize t2).
  { unfold normalize. rewrite !copy_no_NUL by assumption.
    rewrite trim_padding by assumption.
    now rewrite <- !trim_toUpperCase, Hu. }
  split; [exact E|]. unfold processCommand. now rewrite E.
Qed.

(** X17.  A blank line (nothing, or white space only, before the line feed)
    is reported as an unknown command with an empty name; nothing else
    changes. *)
Theorem blank_line_is_reported (text : string) (s : Ctl) :
  all_space text = true ->
  let s' := processCommand text s in
  serialOut s' = (serialOut s ++ unknownNote EmptyString ++ CRLF)%string /\
  same_but_output s s'.
Proof.
  intros H. cbv zeta. unfold processCommand, normalize.
  rewrite copy_no_NUL by now apply all_space_no_NUL.
  rewrite trim_idempotent_on_blank by assumption.
  cbn [toUpperCase]. rewrite dispatch_unknown by reflexivity.
  split; [| unfold same_but_output; repeat split].
  unfold unknownNote, Serial_println, CRLF. cbn [Serial_print serialOut].
  now rewrite !append_assoc.
Qed.

(* ================================================================= *)
(** ** Decimal arguments *)

Lemma digits_uint d : forall acc,
  digits acc (NilEmpty.string_of_uint d) = uint_value d acc.
Proof.
  induction d; intros acc; cbn [NilEmpty.string_of_uint uint_value digits];
    try reflexivity;
    match goal with
    | |- (if isdigit ?c then _ else _) = _ =>
        change (isdigit c) with true; cbv iota;
        match goal with
        | |- digits (_ + digit_val ?c) _ = uint_value _ (_ + ?k) =>
            change (digit_val c) with k
        end
    end;
    apply IHd.
Qed.

Lemma uint_value_pos l : forall p,
  uint_value l (Z.pos p) = Z.pos (Pos.of_uint_acc l p).
Proof.
  induction l; intros p; cbn [uint_value Pos.of_uint_acc];
    try reflexivity;
    rewrite <- IHl; f_equal; lia.
Qed.

Lemma uint_value_zero d : uint_value d 0 = Z.of_uint d.
Proof.
  unfold Z.of_uint.
  induction d; cbn [uint_value Pos.of_uint]; try reflexivity;
    try exact IHd;
    cbn [Z.mul Z.add Z.of_N]; apply uint_value_pos.
Qed.

Lemma digits_of_numeral d : digits 0 (NilEmpty.string_of_uint d) = Z.of_uint d.
Proof. now rewrite digits_uint, uint_value_zero. Qed.

Lemma of_uint_to_uint p : Z.of_uint (Pos.to_uint p) = Z.pos p.
Proof. exact (DecimalZ.of_to (Z.pos p)). Qed.

Lemma numeral_of_pos p :
  NilZero.string_of_uint (Pos.to_uint p) = NilEmpty.string_of_uint (Pos.to_uint p).
Proof.
  pose proof (of_uint_to_uint p) as H.
  destruct (Pos.to_uint p); [discriminate H | reflexivity ..].
Qed.

Lemma atol_numeral d :
  d <> Decimal.Nil ->
  atol (NilEmpty.string_of_uint d) =
  wrap32 (digits 0 (NilEmpty.string_of_uint d)).
Proof.
  intros H. destruct d; [now destruct H | reflexivity ..].
Qed.

Lemma to_uint_not_nil p : Pos.to_uint p <> Decimal.Nil.
Proof.
  intros E. pose proof (of_uint_to_uint p) as H. rewrite E in H. discriminate H.
Qed.

(** [toInt] reads back what [print] wrote, up to the width of a [long]. *)
Lemma toInt_print_int z : toInt (print_int z) = wrap32 z.
Proof.
  unfold toInt, print_int. destruct z as [| p | p]; [reflexivity | |].
  - cbn [Z.to_int NilZero.string_of_int].
    rewrite numeral_of_pos, atol_numeral by apply to_uint_not_nil.
    now rewrite digits_of_numeral, of_uint_to_uint.
  - cbn [Z.to_int NilZero.string_of_int].
    rewrite numeral_of_pos.
    change (atol (String "-" (NilEmpty.string_of_uint (Pos.to_uint p))))
      with (wrap32 (- digits 0 (NilEmpty.string_of_uint (Pos.to_uint p)))).
    now rewrite digits_of_numeral, of_uint_to_uint.
Qed.

Lemma wrap16_wrap32 z : wrap16 (wrap32 z) = wrap16 z.
Proof.
  unfold wrap16, wrap32, wrap.
  change (2 ^ (32 - 1)) with 2147483648. change (2 ^ 32) with 4294967296.
  change (2 ^ (16 - 1)) with 32768. change (2 ^ 16) with 65536.
  pose proof (Z.div_mod (z + 2147483648) 4294967296 ltac:(lia)) as H.
  replace ((z + 2147483648) mod 4294967296 - 2147483648 + 32768)
    with (z + 32768 + (- (65536 * ((z + 2147483648) / 4294967296))) * 65536)
    by lia.
  now rewrite Z.mod_add by lia.
Qed.

Lemma wrap16_small z : - 2 ^ 15 <= z < 2 ^ 15 -> wrap16 z = z.
Proof.
  intros H. unfold wrap16, wrap. change (2 ^ (16 - 1)) with (2 ^ 15).
  rewrite Z.mod_small; lia.
Qed.

Lemma no_space_skip s : no_space s = true -> skip_space s = s.
Proof.
  destruct s as [|c s]; cbn; [reflexivity|].
  intros H. apply andb_prop in H. destruct H as [Hc _].
  apply negb_true_iff in Hc. now rewrite Hc.
Qed.

Lemma no_space_drop s : no_space s = true -> drop_trailing_space s = s.
Proof.
  induction s as [|c s IH]; cbn; [reflexivity|].
  intros H. apply andb_prop in H. destruct H as [Hc Hs].
  apply negb_true_iff in Hc. rewrite (IH Hs), Hc. now destruct s.
Qed.

Lemma numeral_plain d :
  no_space (NilEmpty.string_of_uint d) = true /\
  no_NUL (NilEmpty.string_of_uint d) = true /\
  toUpperCase (NilEmpty.string_of_uint d) = NilEmpty.string_of_uint d.
Proof.
  induction d;
    try (cbn [NilEmpty.string_of_uint]; rewrite toUpperCase_cons by reflexivity);
    cbn [NilEmpty.string_of_uint no_space no_NUL toUpperCase];
    try (now repeat split);
    destruct IHd as (I1 & I2 & I3); rewrite I1, I2, I3; now repeat split.
Qed.

Lemma print_int_plain z :
  no_space (print_int z) = true /\ no_NUL (print_int z) = true /\
  toUpperCase (print_int z) = print_int z.
Proof.
  unfold print_int. destruct z as [| p | p]; [now repeat split | |];
    cbn [Z.to_int NilZero.string_of_int]; rewrite numeral_of_pos;
    destruct (numeral_plain (Pos.to_uint p)) as (I1 & I2 & I3).
  - now repeat split.
  - rewrite toUpperCase_cons by reflexivity.
    cbn [no_space no_NUL]. rewrite I1, I2, I3. now repeat split.
Qed.

Lemma normalize_move_text a z :
  normalize (axisPrefix a ++ print_int z) = (axisPrefix a ++ print_int z)%string.
Proof.
  destruct (print_int_plain z) as (I1 & I2 & I3).
  assert (H : no_space (axisPrefix a ++ print_int z) = true)
    by (destruct a; cbn; exact I1).
  assert (K : no_NUL (axisPrefix a ++ print_int z) = true)
    by (destruct a; cbn; exact I2).
  unfold normalize, trim.
  rewrite copy_no_NUL, no_space_skip, no_space_drop by assumption.
  destruct a; cbn [axisPrefix append];
    rewrite !toUpperCase_cons by reflexivity; now rewrite I3.
Qed.

(** X18.  Decimal arguments.  For every integer [z], the command made of the
    axis prefix and the decimal numeral of [z] (as STATUS prints
    positions) is parsed to [z] narrowed to 16 bits, and the target is
    that value clamped.  So a step count within the range of the axis
    becomes the target exactly, a larger one below 32768 is clamped to
    the maximum, and one from 32768 to 65535 wraps to a negative [int]
    and sets the target to 0. *)
Theorem decimal_argument_is_parsed_back (a : Axis) (z : Z) (s : Ctl) :
  let text := (axisPrefix a ++ print_int z)%string in
  let s' := processCommand text s in
  parsed_steps (normalize text) = wrap16 z /\
  target a s' = clamp (wrap16 z) 0 (axisMax a) /\
  (0 <= z <= axisMax a -> target a s' = z) /\
  (axisMax a <= z < 2 ^ 15 -> target a s' = axisMax a) /\
  (2 ^ 15 <= z < 2 ^ 16 -> target a s' = 0) /\
  (- 2 ^ 15 <= z <= 0 -> target a s' = 0).
Proof.
  cbv zeta.
  assert (Ep : parsed_steps (normalize (axisPrefix a ++ print_int z)) = wrap16 z).
  { unfold parsed_steps.
    now rewrite normalize_move_text, substring_from_prefix, toInt_print_int,
      wrap16_wrap32. }
  assert (Et : target a (processCommand (axisPrefix a ++ print_int z) s)
               = clamp (wrap16 z) 0 (axisMax a)).
  { unfold processCommand. rewrite normalize_move_text.
    pose proof (dispatch_move a (print_int z) s) as D. cbv zeta in D.
    rewrite D, toInt_print_int, wrap16_wrap32.
    rewrite <- (setTarget_target a (wrap16 z) s). destruct a; reflexivity. }
  assert (Hmax : 0 <= axisMax a <= 2048) by (destruct a; vm_compute; split; discriminate).
  split; [exact Ep | split; [exact Et|]].
  rewrite Et. unfold clamp.
  split; [| split; [| split]]; intros H.
  - rewrite wrap16_small by lia. lia.
  - rewrite wrap16_small by lia. lia.
  - assert (W : wrap16 z = z - 2 ^ 16).
    { unfold wrap16, wrap. change (2 ^ (16 - 1)) with (2 ^ 15).
      replace (z + 2 ^ 15) with (z - 2 ^ 15 + 1 * 2 ^ 16) by lia.
      rewrite Z.mod_add, Z.mod_small by lia. lia. }
    rewrite W. lia.
  - rewrite wrap16_small by lia. lia.
Qed.

(* ================================================================= *)
(** ** Half stepping *)

Lemma pattern_neighbours i d :
  0 <= i < 8 -> d = 1 \/ d = -1 ->
  differing (pattern i) (pattern ((i + d) mod 8)) = 1%nat /\
  (1 <= energized (pattern i) <= 2)%nat /\
  List.length (pattern i) = 4%nat.
Proof.
  intros Hi Hd.
  assert (Ei : i = 0 \/ i = 1 \/ i = 2 \/ i = 3 \/ i = 4 \/ i = 5 \/ i = 6 \/ i = 7) by lia.
  destruct Hd as [-> | ->];
    repeat (destruct Ei as [-> | Ei]); try subst i;
    vm_compute; repeat split; lia.
Qed.

(** X13.  Half stepping.  Two consecutive physical steps of a motor, in the
    same or in opposite directions, put on its four pins two patterns
    that differ in exactly one pin; every pattern written energizes one
    coil or two. *)
Theorem consecutive_steps_switch_one_coil (p : list Z) (d e : Z) (s : Ctl) :
  0 <= currentStep s < 8 ->
  d = 1 \/ d = -1 ->
  e = 1 \/ e = -1 ->
  let first := levels (writes (stepMotor p d) s) in
  let second := levels (writes (stepMotor p e) (stepMotor p d s)) in
  differing first second = 1%nat /\
  (1 <= energized first <= 2)%nat /\
  (1 <= energized second <= 2)%nat.
Proof.
  intros Hi Hd He first second.
  assert (Hr : 0 <= currentStep (stepMotor p d s) < 8)
    by now apply stepMotor_index_range.
  assert (E1 : first = pattern (currentStep (stepMotor p d s))).
  { unfold first. rewrite stepMotor_writes. now apply levels_coil_writes. }
  assert (E2 : second = pattern ((currentStep (stepMotor p d s) + e) mod 8)).
  { unfold second.
    rewrite stepMotor_writes, stepMotor_index by assumption.
    apply levels_coil_writes, Z.mod_pos_bound. lia. }
  destruct (pattern_neighbours _ e Hr He) as (N1 & N2 & _).
  assert (Hr2 : 0 <= (currentStep (stepMotor p d s) + e) mod 8 < 8)
    by (apply Z.mod_pos_bound; lia).
  destruct (pattern_neighbours _ 1 Hr2 (or_introl eq_refl)) as (_ & N3 & _).
  rewrite E1, E2. now repeat split.
Qed.

Lemma consecutive_steps_switch_one_coil_witness :
  differing (levels (writes (stepMotor altitudePins 1) startup))
            (levels (writes (stepMotor altitudePins (-1))
                       (stepMotor altitudePins 1 startup))) = 1%nat.
Proof.
  exact (proj1 (consecutive_steps_switch_one_coil altitudePins 1 (-1) startup
                  ltac:(cbn; lia) (or_introl eq_refl) (or_intror eq_refl))).
Defined.

(* ================================================================= *)
(** ** The arrival notice *)

Lemma loop_single a s :
  stringComplete s = false ->
  moving (other a) s = false ->
  loop s = gatedTick a s.
Proof.
  intros Hc Ho. rewrite loop_idle by assumption.
  destruct a; cbn [other] in Ho.
  - pose proof (gatedTick_frame Azimuth s) as F. cbv zeta in F.
    destruct F as (_ & _ & F3 & _). cbn [other] in F3.
    unfold gatedTick at 1. unfold ifte, skip. now rewrite F3, Ho.
  - unfold gatedTick at 2. unfold ifte, skip. now rewrite Ho.
Qed.

Lemma loops_idle n s :
  stringComplete s = false ->
  azimuthMoving s = false -> altitudeMoving s = false ->
  loops n s = s.
Proof.
  intros Hc Ha Hl.
  assert (E : loop s = s).
  { rewrite (loop_single Azimuth) by assumption.
    unfold gatedTick, ifte, skip. cbn [moving]. now rewrite Ha. }
  induction n as [|n IH]; [reflexivity|].
  cbn [loops]. unfold seq. now rewrite E.
Qed.

Lemma tick_quiet a s :
  position a s <> target a s -> serialOut (tick a s) = serialOut s.
Proof.
  intros Hne.
  destruct (Z.lt_trichotomy (position a s) (target a s)) as [L | [L | L]];
    [rewrite tick_below by assumption | contradiction
    | rewrite tick_above by lia];
    match goal with
    | |- serialOut (stepMotor ?p ?d ?x) = _ =>
        pose proof (stepMotor_frame p d x) as F; cbv zeta in F;
        destruct F as (_ & _ & _ & _ & _ & _ & _ & _ & _ & _ & _ & F);
        rewrite F
    end;
    destruct a; reflexivity.
Qed.

Lemma loops_announce a n : forall s,
  stringComplete s = false ->
  moving (other a) s = false ->
  gate a s = true ->
  moving a s = true ->
  Z.abs (position a s - target a s) + 1 <= Z.of_nat n ->
  serialOut (loops n s) = (serialOut s ++ reachedNote a ++ CRLF)%string.
Proof.
  induction n as [|n IH]; intros s Hc Ho Hg Hm Hn; [lia|].
  cbn [loops]. unfold seq.
  assert (El : loop s = tick a s).
  { rewrite (loop_single a) by assumption.
    unfold gatedTick, ifte. now rewrite Hm, Hg. }
  pose proof (tick_frame a s) as F. cbv zeta in F.
  destruct F as (F1 & _ & _ & F4 & F5 & F6 & F7 & _ & F9).
  destruct (tick_axis a s) as [T1 T2].
  destruct (Z.eqb_spec (position a s) (target a s)) as [Heq | Hne].
  - rewrite El, loops_idle.
    + rewrite tick_at by assumption. destruct a; reflexivity.
    + now rewrite F9.
    + rewrite Hm in T2. cbn in T2.
      destruct a; cbn [moving other] in *; [exact T2 | now rewrite F4].
    + rewrite Hm in T2. cbn in T2.
      destruct a; cbn [moving other] in *; [now rewrite F4 | exact T2].
  - rewrite El, IH.
    + now rewrite tick_quiet.
    + now rewrite F9.
    + now rewrite F4.
    + now rewrite (gate_flags a s (tick a s) F5 F6 F7).
    + rewrite T2, Hm. reflexivity.
    + rewrite T1, F1.
      destruct (Z.lt_trichotomy (position a s) (target a s)) as [L | [L | L]];
        [rewrite Z.sgn_pos by lia | contradiction | rewrite Z.sgn_neg by lia];
        lia.
Qed.

(** X11.  The arrival notice.  An armed axis whose gate is open, while the
    other axis is at rest and no line arrives, walks to its target
    without printing and then prints its "Target reached" line exactly
    once: after any number of iterations larger than the distance, the
    output is the former output followed by that one line. *)
Theorem arrival_is_announced_once (a : Axis) (s : Ctl) (n : nat) :
  stringComplete s = false ->
  moving (other a) s = false ->
  gate a s = true ->
  moving a s = true ->
  Z.abs (position a s - target a s) + 1 <= Z.of_nat n ->
  serialOut (loops n s) = (serialOut s ++ reachedNote a ++ CRLF)%string /\
  loops (S n) s = loops n s.
Proof.
  intros Hc Ho Hg Hm Hn. split; [now apply loops_announce|].
  assert (Hk : forall k x, loops (S k) x = loop (loops k x)).
  { induction k as [|k IH]; intros x; [reflexivity|].
    cbn [loops] in *. unfold seq in *. now rewrite <- IH. }
  rewrite Hk.
  destruct (loops_converge a n s Hc Hg Hm Hn) as [_ Cm].
  destruct (loops_at_rest (other a) n s Hc Ho) as [_ Co].
  destruct (loops_keep_buffer n s Hc) as [_ Cc].
  apply (loops_idle 1 (loops n s) Cc);
    destruct a; cbn [moving other] in Cm, Co; assumption.
Qed.

(* ================================================================= *)
(** ** Lines that hold a NUL byte *)











End Sketch.

(* ================================================================= *)
(** ** The sketch at work *)

(** The lemmas below run the sketch on concrete lines.  They take the
    heap to be [zeroed]; none of their lines holds a NUL, so that the
    heap is never looked at. *)

(** C2 as stated does not hold: the tick that finds the axis at its
    target makes no physical step.  The state is the one in which
    [loop] ticks the azimuth axis right after dispatching HOME at
    startup. *)
Lemma tick_at_target_makes_no_step :
  let s := processCommand zeroed "HOME" startup in
  gate Azimuth s = true /\ moving Azimuth s = true /\
  position Azimuth s = target Azimuth s /\
  writes (tick Azimuth) s = [] /\
  currentStep (tick Azimuth s) = currentStep s /\
  physical_steps (tick Azimuth) s <> 1.
Proof.
  vm_compute. repeat split; try reflexivity. discriminate.
Qed.

Lemma setTarget_then_loops_reach_target_witness :
  let s := loops zeroed 4 (setTarget Altitude 3 startup) in
  position Altitude s = 3 /\ moving Altitude s = false.
Proof.
  apply (setTarget_then_loops_reach_target zeroed Altitude 3 startup 4).
  - vm_compute. split; discriminate.
  - reflexivity.
  - reflexivity.
  - vm_compute. discriminate.
Defined.

Lemma reachable_phase_in_table_witness :
  0 <= currentStep (run zeroed [Loop; line "AZ,-3"; Loop; line "AL,11"; Loop; Loop] startup) < 8.
Proof.
  apply (reachable_phase_in_table zeroed), (reachable_run zeroed), (reach_startup zeroed).
Defined.

Lemma positions_and_targets_in_range_witness :
  let s := fire zeroed Loop (fire zeroed (line "AL,9999") startup) in
  0 <= position Altitude s <= 1024 /\ 0 <= target Altitude s <= 1024.
Proof.
  exact ((positions_and_targets_in_range zeroed)
           (fire zeroed Loop (fire zeroed (line "AL,9999") startup))
           (reach_fire zeroed _ _ (reach_fire zeroed _ _ (reach_startup zeroed))) Altitude).
Defined.

(** C5 as stated does not hold.  STOP in the middle of a move leaves
    the axis away from its target with its gate open and the flag
    cleared; a step that lands on the target leaves the flag set until
    the next iteration; and an axis armed while its gate is closed keeps
    its flag set. *)
Lemma moving_flag_is_not_that_iff :
  let stopped := run zeroed [Loop; line "AZ,5"; Loop; line "STOP"; Loop] startup in
  let landed := run zeroed [Loop; line "AZ,1"; Loop] startup in
  let gated := run zeroed [Loop; line "TEST_AZ"; Loop; line "AL,7"; Loop] startup in
  (reachable zeroed stopped /\
   ~ (moving Azimuth stopped = true <->
      position Azimuth stopped <> target Azimuth stopped /\
      gate Azimuth stopped = true)) /\
  (reachable zeroed landed /\
   ~ (moving Azimuth landed = true <->
      position Azimuth landed <> target Azimuth landed /\
      gate Azimuth landed = true)) /\
  (reachable zeroed gated /\
   ~ (moving Altitude gated = true <->
      position Altitude gated <> target Altitude gated /\
      gate Altitude gated = true)).
Proof.
  cbv zeta. repeat split; try (apply (reachable_run zeroed), (reach_startup zeroed)).
  - vm_compute. intros [_ H]. assert (E : false = true); [|discriminate E].
    apply H. split; [discriminate | reflexivity].
  - vm_compute. intros [H _]. destruct (H eq_refl) as [N _]. now apply N.
  - vm_compute. intros [H _]. destruct (H eq_refl) as [_ N]. discriminate N.
Qed.

Lemma away_from_target_implies_moving_witness :
  let s := loop zeroed (serialEvent (terminated "AZ,5") startup) in
  position Azimuth s = 1 /\ target Azimuth s = 5 /\ moving Azimuth s = true.
Proof.
  cbv zeta. split; [reflexivity | split; [reflexivity|]].
  apply ((away_from_target_implies_moving zeroed)
           (loop zeroed (serialEvent (terminated "AZ,5") startup))).
  - apply (rws_loop zeroed); [apply (rws_rx zeroed), (rws_startup zeroed) | reflexivity].
  - vm_compute. discriminate.
Defined.

(** C7 as stated does not hold.  Two lines arrive in one burst: once
    the terminator of the first has been read the line [STOP] is
    pending, and the next round of the [while] loop appends the next
    byte to it.  The following iteration of [loop] is handed both lines
    at once, reports an unknown command, and the STOP is lost. *)
Lemma pending_line_is_appended_to :
  let s := serialEvent (terminated "STOP") startup in
  let s' := serialEvent (terminated "STOP" ++ terminated "AZ,1") startup in
  stringComplete s = true /\
  inputString s = terminated "STOP" /\
  s' = serialEvent (terminated "AZ,1") s /\
  inputString s' = (terminated "STOP" ++ terminated "AZ,1")%string /\
  inputString s' <> inputString s /\
  recognized (normalize zeroed (inputString s')) = false.
Proof.
  vm_compute. repeat split. discriminate.
Qed.

Lemma pending_line_grows_until_dispatched_witness :
  let s := serialEvent (terminated "STOP") startup in
  inputString (serialEvent "AZ,1" s) = (terminated "STOP" ++ "AZ,1")%string /\
  stringComplete (serialEvent "AZ,1" s) = true.
Proof.
  pose proof ((pending_line_grows_until_dispatched zeroed)
                (serialEvent (terminated "STOP") startup) "AZ,1" eq_refl) as H.
  cbv zeta in H. destruct H as (H1 & H2 & _).
  split; [exact H1 | exact H2].
Defined.


(** C9 as stated does not hold: the suffix [12ABC] is not a number, yet
    the step value that reaches [setTarget] is 12, the value of the
    digits in front. *)
Lemma digits_in_front_are_parsed :
  let text := "az,12abc" in
  normalize zeroed text = "AZ,12ABC" /\
  is_numeral (substring_from 3 (normalize zeroed text)) = false /\
  parsed_steps (normalize zeroed text) = 12 /\
  parsed_steps (normalize zeroed text) <> 0 /\
  target Azimuth (processCommand zeroed text startup) = 12.
Proof.
  vm_compute. repeat split. discriminate.
Qed.

Lemma move_command_without_number_means_zero_witness :
  let s := processCommand zeroed "al,x7" (set_altitudeTarget 9 startup) in
  target Altitude s = 0 /\ moving Altitude s = true.
Proof.
  pose proof ((move_command_without_number_means_zero zeroed)
                Altitude "al,x7" "X7" (set_altitudeTarget 9 startup) eq_refl)
    as H.
  cbv zeta in H. destruct H as (_ & _ & H3 & _ & H5 & _ & H7).
  split; [exact (proj1 (H7 (H5 eq_refl))) | exact H3].
Defined.

(** AZ,100, then enough idle iterations, then STATUS. *)
Example scenario_az_100 :
  let s := run zeroed [Loop; line "AZ,100"; Loop] startup in
  let s' := run zeroed [line "STATUS"; Loop] (loops zeroed 100 s) in
  azimuthTarget s = 100 /\
  azimuthStep s' = 100 /\ azimuthMoving s' = false /\
  serialOut s' =
    (serialOut s ++ "AZIMUTH: Target reached" ++ CRLF ++
     "STATUS: AZ=100, AL=0, AZ_MOVING=0, AL_MOVING=0, TEST_MODE=BOTH" ++ CRLF)%string.
Proof. vm_compute. repeat split. Qed.

(** AL,9999 exceeds the altitude maximum. *)
Example scenario_al_9999 :
  altitudeTarget (run zeroed [Loop; line "AL,9999"; Loop] startup) = 1024.
Proof. reflexivity. Qed.

(** HOME while the azimuth axis is on its way to 500. *)
Example scenario_home_in_motion :
  let s := run zeroed [line "HOME"; Loop] (loops zeroed 40 (run zeroed [Loop; line "AZ,500"; Loop] startup)) in
  azimuthStep s = 40 /\ azimuthTarget s = 0 /\
  azimuthStep (loops zeroed 41 s) = 0 /\ azimuthMoving (loops zeroed 41 s) = false.
Proof. vm_compute. repeat split. Qed.

(** TEST_AZ, then AL,50: the altitude target is recorded, the altitude
    axis does not move before TEST_BOTH is sent. *)
Example scenario_test_az_then_al :
  let s := loops zeroed 60 (run zeroed [Loop; line "TEST_AZ"; Loop; line "AL,50"; Loop] startup) in
  altitudeTarget s = 50 /\ altitudeStep s = 0 /\ altitudeMoving s = true /\
  altitudeStep (loops zeroed 60 (run zeroed [line "TEST_BOTH"; Loop] s)) = 50.
Proof. vm_compute. repeat split. Qed.

Lemma idle_loop_is_silent_witness : (loops zeroed) 5 startup = startup.
Proof.
  apply (idle_loop_is_silent zeroed startup 5); reflexivity.
Defined.

Lemma closed_gate_freezes_axis_witness :
  let s := processCommand zeroed "AL,50" (processCommand zeroed "TEST_AZ" startup) in
  position Altitude (loops zeroed 9 s) = 0 /\ moving Altitude (loops zeroed 9 s) = true.
Proof.
  pose proof (closed_gate_freezes_axis zeroed Altitude
                (processCommand zeroed "AL,50" (processCommand zeroed "TEST_AZ" startup)) 9
                eq_refl eq_refl) as (H1 & H2 & _).
  split; [exact H1 | exact H2].
Defined.

Lemma stop_freezes_both_axes_witness :
  let s := serialEvent (terminated "stop")
             (loops zeroed 3 (processCommand zeroed "AZ,9" startup)) in
  position Azimuth (loops zeroed 8 s) = 3 /\ target Azimuth (loops zeroed 8 s) = 9 /\
  moving Azimuth (loops zeroed 8 s) = false.
Proof.
  exact ((stop_freezes_both_axes zeroed)
           (serialEvent (terminated "stop")
              (loops zeroed 3 (processCommand zeroed "AZ,9" startup))) 7
           eq_refl eq_refl Azimuth).
Defined.

Lemma home_returns_both_axes_witness :
  let s := serialEvent (terminated "home")
             (loops zeroed 6 (processCommand zeroed "AL,4" (processCommand zeroed "AZ,9" startup))) in
  position Azimuth (loops zeroed 7 s) = 0 /\ position Altitude (loops zeroed 7 s) = 0.
Proof.
  pose proof ((home_returns_both_axes zeroed)
                (serialEvent (terminated "home")
                   (loops zeroed 6 (processCommand zeroed "AL,4"
                               (processCommand zeroed "AZ,9" startup)))) 7
                eq_refl eq_refl eq_refl
                ltac:(intros a; destruct a; vm_compute; discriminate)) as H.
  split; [exact (proj1 (H Azimuth)) | exact (proj1 (H Altitude))].
Defined.

Lemma selector_is_exclusive_witness :
  oneMode (run zeroed [Loop; line "TEST_AL"; Loop; line "TEST_AZ"; Loop] startup).
Proof.
  apply (selector_is_exclusive zeroed), (reachable_run zeroed), (reach_startup zeroed).
Defined.

Lemma status_reports_one_line_witness :
  serialOut (processCommand zeroed " status" initial) =
  ("STATUS: AZ=0, AL=0, AZ_MOVING=0, AL_MOVING=0, TEST_MODE=BOTH" ++ CRLF)%string.
Proof.
  exact (proj1 (status_reports_one_line zeroed " status" initial eq_refl
                  (or_intror (or_intror (conj eq_refl (conj eq_refl eq_refl)))))).
Defined.

Lemma queries_are_read_only_witness :
  same_but_output startup (processCommand zeroed "help" startup).
Proof.
  apply (queries_are_read_only zeroed "help" startup). right; left. reflexivity.
Defined.

Lemma partial_line_waits_for_line_feed_witness :
  let s := serialEvent (terminated "US") (loops zeroed 3 (serialEvent "STAT" startup)) in
  inputString s = terminated "STATUS" /\ stringComplete s = true.
Proof.
  pose proof (partial_line_waits_for_line_feed zeroed startup "STAT" (terminated "US") 3
                eq_refl eq_refl) as H.
  cbv zeta in H. destruct H as (_ & _ & H3 & H4 & _).
  split; [exact H3 | exact H4].
Defined.

Lemma commands_ignore_case_and_padding_witness :
  processCommand zeroed ("  " ++ "Test_Az" ++ String CR (String LF EmptyString)) startup
  = (processCommand zeroed) "TEST_AZ" startup.
Proof.
  exact (proj2 ((commands_ignore_case_and_padding zeroed)
                  "  " (String CR (String LF EmptyString)) "Test_Az" "TEST_AZ"
                  startup eq_refl eq_refl eq_refl eq_refl)).
Defined.

Lemma blank_line_is_reported_witness :
  serialOut (processCommand zeroed (terminated EmptyString) initial) =
  ("ERROR: Unknown command ''. Type HELP for available commands." ++ CRLF)%string.
Proof.
  exact (proj1 (blank_line_is_reported zeroed (terminated EmptyString) initial eq_refl)).
Defined.

Lemma arrival_is_announced_once_witness :
  serialOut (loops zeroed 9 (setTarget Azimuth 5 initial)) =
  ("AZIMUTH: Target reached" ++ CRLF)%string.
Proof.
  exact (proj1 (arrival_is_announced_once zeroed Azimuth (setTarget Azimuth 5 initial) 9
                  eq_refl eq_refl eq_refl eq_refl
                  ltac:(vm_compute; discriminate))).
Defined.


(** Why X16 asks for a line without NUL: behind a NUL the copy holds
    bytes that [strcpy] did not write, [trim] keeps those that are not
    white space, and the unknown-command error echoes them.  Padding
    such a line changes how many of them there are. *)
Example padding_shows_behind_a_NUL :
  let bare := ("q" ++ String NUL EmptyString)%string in
  let padded := (bare ++ " ")%string in
  c_str (normalize zeroed padded) = c_str (normalize zeroed bare) /\
  String.length (serialOut (processCommand zeroed padded initial)) =
  S (String.length (serialOut (processCommand zeroed bare initial))).
Proof. vm_compute. split; reflexivity. Qed.
